(** * process_hospital_files.py: a shallow embedding and its properties

    The script synchronises the CMS provider-data catalogue into a local
    directory: it reads the cutoff date from the run ledger ([run_list.csv]),
    filters the catalogue by theme and by modification date, downloads every
    surviving file, rewrites its header row in snake case, and appends a row
    to the ledger.

    Python values are modelled as follows.
    - [str] is a list of Unicode code points ([pystr]).
    - Exceptions are an error monad ([result]) over the exception classes
      the script can meet ([exn]).
    - A decoded JSON document is the inductive type [json]; a [dict] is an
      association list read by its first binding.
    - [datetime] values are a position on the proleptic Gregorian time line
      together with an optional UTC offset.
    - The files the script reads and writes are explicit state. *)

From Stdlib Require Import String Ascii List NArith ZArith Bool Lia Permutation.
Import ListNotations.

Local Open Scope N_scope.

(** ** Python strings *)

Definition char := N.
Definition pystr := list char.

(** An ASCII literal as a Python string. *)
Fixpoint of_string (s : string) : pystr :=
  match s with
  | EmptyString => []
  | String a s' => N_of_ascii a :: of_string s'
  end.

Definition pystr_eqb (a b : pystr) : bool :=
  if list_eq_dec N.eq_dec a b then true else false.

(** [str.isspace] on one code point: the characters [str.strip()] removes. *)
Definition isspace (c : char) : bool :=
  ((9 <=? c) && (c <=? 13)) || ((28 <=? c) && (c <=? 32))
  || (c =? 133) || (c =? 160) || (c =? 5760)
  || ((8192 <=? c) && (c <=? 8202))
  || (c =? 8232) || (c =? 8233) || (c =? 8239) || (c =? 8287) || (c =? 12288).

Fixpoint lstrip (p : char -> bool) (s : pystr) : pystr :=
  match s with
  | [] => []
  | c :: s' => if p c then lstrip p s' else s
  end.

Fixpoint rstrip (p : char -> bool) (s : pystr) : pystr :=
  match s with
  | [] => []
  | c :: s' =>
      match rstrip p s' with
      | [] => if p c then [] else [c]
      | r => c :: r
      end
  end.

(** [s.strip()] with [p = isspace], [s.strip(chars)] with [p] the
    membership in [chars]. *)
Definition strip (p : char -> bool) (s : pystr) : pystr :=
  rstrip p (lstrip p s).

(** [re.sub("[...]", repl, s)] for a one-character class. *)
Definition re_sub_class (cls : char -> bool) (repl : pystr) (s : pystr) : pystr :=
  flat_map (fun c => if cls c then repl else [c]) s.

(** [re.sub("[...]+", repl, s)]: every maximal run of characters of the
    class is replaced by one copy of [repl].  [in_run] tells that the
    previous character belonged to a run already replaced. *)
Fixpoint re_sub_runs (cls : char -> bool) (repl : pystr) (in_run : bool)
  (s : pystr) : pystr :=
  match s with
  | [] => []
  | c :: s' =>
      if cls c then
        if in_run then re_sub_runs cls repl true s'
        else repl ++ re_sub_runs cls repl true s'
      else c :: re_sub_runs cls repl false s'
  end.

Definition re_sub_plus (cls : char -> bool) (repl s : pystr) : pystr :=
  re_sub_runs cls repl false s.

Definition is_digit (c : char) : bool := (48 <=? c) && (c <=? 57).
Definition is_upper (c : char) : bool := (65 <=? c) && (c <=? 90).
Definition is_lower (c : char) : bool := (97 <=? c) && (c <=? 122).

(** The class [a-zA-Z0-9]. *)
Definition is_alnum (c : char) : bool := is_lower c || is_upper c || is_digit c.

(** The class [^a-zA-Z0-9]. *)
Definition nonalnum (c : char) : bool := negb (is_alnum c).

Definition underscore : char := 95.
Definition is_underscore (c : char) : bool := c =? underscore.

(** [str.lower] on the ASCII range.  [to_snake_case] applies it to the
    result of the second substitution, which is ASCII
    ([re_sub_runs_ascii] below). *)
Definition lower_char (c : char) : char := if is_upper c then c + 32 else c.
Definition lower (s : pystr) : pystr := map lower_char s.

(** ** to_snake_case *)

(** The class of the first substitution: right single quotation mark,
    apostrophe, double quote, comma, parentheses, brackets, braces. *)
Definition is_removed_punct (c : char) : bool :=
  (c =? 8217) || (c =? 39) || (c =? 34) || (c =? 44) || (c =? 40) || (c =? 41)
  || (c =? 91) || (c =? 93) || (c =? 123) || (c =? 125).

Definition to_snake_case (name : pystr) : pystr :=
  let name := strip isspace name in
  let name := re_sub_class is_removed_punct [] name in
  let name := re_sub_plus nonalnum [underscore] name in
  strip is_underscore (lower name).

(** The HeaderToken shape: lowercase ASCII letters, digits and underscores,
    no underscore at either end, no two underscores in a row. *)
Definition is_token_char (c : char) : bool :=
  is_lower c || is_digit c || is_underscore c.

Definition starts_with (p : char -> bool) (s : pystr) : bool :=
  match s with
  | [] => false
  | c :: _ => p c
  end.

Fixpoint ends_with (p : char -> bool) (s : pystr) : bool :=
  match s with
  | [] => false
  | [c] => p c
  | _ :: s' => ends_with p s'
  end.

Fixpoint has_repeat (p : char -> bool) (s : pystr) : bool :=
  match s with
  | [] => false
  | c :: s' => (p c && starts_with p s') || has_repeat p s'
  end.

Definition header_token (s : pystr) : bool :=
  forallb is_token_char s
  && negb (starts_with is_underscore s)
  && negb (ends_with is_underscore s)
  && negb (has_repeat is_underscore s).

(** ** Exceptions *)

(** The exception classes the script can meet.  [RequestError] stands for
    what [requests.get], [raise_for_status] and [response.json] raise,
    [CsvError] for [csv.Error]. *)
Inductive exn : Type :=
| KeyError
| TypeError
| ValueError
| IndexError
| AttributeError
| RequestError
| UnicodeDecodeError
| CsvError
| OSError.

Inductive result (A : Type) : Type :=
| Ok (a : A)
| Raise (e : exn).
Arguments Ok {A} a.
Arguments Raise {A} e.

Definition rbind {A B : Type} (r : result A) (k : A -> result B) : result B :=
  match r with
  | Ok a => k a
  | Raise e => Raise e
  end.

Declare Scope result_scope.
Delimit Scope result_scope with result.
Notation "x <- r ;; k" := (rbind r (fun x => k))
  (at level 61, r at next level, right associativity) : result_scope.

Definition exn_eqb (a b : exn) : bool :=
  match a, b with
  | KeyError, KeyError | TypeError, TypeError | ValueError, ValueError
  | IndexError, IndexError | AttributeError, AttributeError
  | RequestError, RequestError | UnicodeDecodeError, UnicodeDecodeError
  | CsvError, CsvError | OSError, OSError => true
  | _, _ => false
  end.

(** [isinstance(e, cls)]: among these classes the only proper subclass is
    [UnicodeDecodeError], of [ValueError]. *)
Definition isinstance (e cls : exn) : bool :=
  exn_eqb e cls
  || match e, cls with
     | UnicodeDecodeError, ValueError => true
     | _, _ => false
     end.

(** [except (E1, E2, ...)]: does the clause handle [e]? *)
Definition handled_by (classes : list exn) (e : exn) : bool :=
  existsb (isinstance e) classes.

(** ** Decoded JSON *)

(** What [response.json()] returns.  A number only matters to the script
    by being neither a string nor a container.  An object is its list of
    bindings; a key is bound to the value of its first occurrence. *)
#[warnings="-register-all"]
Inductive json : Type :=
| JNull
| JBool (b : bool)
| JNum (n : Z)
| JStr (s : pystr)
| JArr (items : list json)
| JObj (bindings : list (pystr * json)).

Fixpoint dict_get (k : pystr) (bindings : list (pystr * json)) : option json :=
  match bindings with
  | [] => None
  | (k', v) :: rest => if pystr_eqb k k' then Some v else dict_get k rest
  end.

Definition dict_keys (bindings : list (pystr * json)) : list pystr :=
  nodup (list_eq_dec N.eq_dec) (map fst bindings).

(** [v[k]] for a string key [k]. *)
Definition getitem_str (v : json) (k : pystr) : result json :=
  match v with
  | JObj bindings =>
      match dict_get k bindings with
      | Some x => Ok x
      | None => Raise KeyError
      end
  | _ => Raise TypeError
  end.

(** [v[0]]. *)
Definition getitem_0 (v : json) : result json :=
  match v with
  | JArr (x :: _) => Ok x
  | JArr [] => Raise IndexError
  | JStr (c :: _) => Ok (JStr [c])
  | JStr [] => Raise IndexError
  | JObj _ => Raise KeyError
  | _ => Raise TypeError
  end.

Fixpoint is_prefix (a s : pystr) : bool :=
  match a, s with
  | [], _ => true
  | _ :: _, [] => false
  | x :: a', y :: s' => (x =? y) && is_prefix a' s'
  end.

(** [a in s] for two strings. *)
Fixpoint is_substring (a s : pystr) : bool :=
  is_prefix a s
  || match s with
     | [] => false
     | _ :: s' => is_substring a s'
     end.

(** [a == v] for a string [a]. *)
Definition str_eq_json (a : pystr) (v : json) : bool :=
  match v with
  | JStr s => pystr_eqb a s
  | _ => false
  end.

(** [a in v] for a string [a]. *)
Definition contains (a : pystr) (v : json) : result bool :=
  match v with
  | JArr items => Ok (existsb (str_eq_json a) items)
  | JStr s => Ok (is_substring a s)
  | JObj bindings => Ok (existsb (pystr_eqb a) (map fst bindings))
  | _ => Raise TypeError
  end.

(** [for d in v]: the values the loop visits. *)
Definition iterate (v : json) : result (list json) :=
  match v with
  | JArr items => Ok items
  | JObj bindings => Ok (map JStr (dict_keys bindings))
  | JStr s => Ok (map (fun c => JStr [c]) s)
  | _ => Raise TypeError
  end.

(** [len(v)]. *)
Definition py_len (v : json) : result Z :=
  match v with
  | JArr items => Ok (Z.of_nat (length items))
  | JObj bindings => Ok (Z.of_nat (length (dict_keys bindings)))
  | JStr s => Ok (Z.of_nat (length s))
  | _ => Raise TypeError
  end.

(** ** datetime *)

(** A [datetime] (or pandas [Timestamp]) is its wall-clock position in
    microseconds since 0001-01-01T00:00:00 and, when it is timezone-aware,
    its UTC offset in microseconds. *)
Record datetime : Type := {
  wall : Z;
  utcoffset : option Z
}.

Definition us_per_day : Z := 86400000000.

(** [a > b] on datetimes: naive values compare by wall clock, aware values
    by instant, and a naive value cannot be compared with an aware one. *)
Definition datetime_gt (a b : datetime) : result bool :=
  match utcoffset a, utcoffset b with
  | None, None => Ok (wall b <? wall a)%Z
  | Some oa, Some ob => Ok (wall b - ob <? wall a - oa)%Z
  | _, _ => Raise TypeError
  end.

Definition is_leap (year : Z) : bool :=
  ((year mod 4 =? 0) && (negb (year mod 100 =? 0) || (year mod 400 =? 0)))%Z.

Definition days_before_year (year : Z) : Z :=
  (let y := year - 1 in y * 365 + y / 4 - y / 100 + y / 400)%Z.

Definition days_in_month (year month : Z) : Z :=
  (if (month =? 2) && is_leap year then 29
   else nth (Z.to_nat month) [0; 31; 28; 31; 30; 31; 30; 31; 31; 30; 31; 30; 31] 0)%Z.

Definition days_before_month (year month : Z) : Z :=
  (nth (Z.to_nat month) [0; 0; 31; 59; 90; 120; 151; 181; 212; 243; 273; 304; 334] 0
   + (if (2 <? month) && is_leap year then 1 else 0))%Z.

(** [date(year, month, day).toordinal()]: 0001-01-01 is day 1. *)
Definition ymd2ord (year month day : Z) : Z :=
  (days_before_year year + days_before_month year month + day)%Z.

(** [datetime(year, month, day)], a naive value at midnight. *)
Definition datetime_ymd (year month day : Z) : datetime :=
  {| wall := ((ymd2ord year month day - 1) * us_per_day)%Z; utcoffset := None |}.

(** The calendar day of a datetime, as an ordinal: what
    [strftime("%Y-%m-%d")] prints. *)
Definition day_of (t : datetime) : Z := (wall t / us_per_day + 1)%Z.

(** Midnight of an ordinal day, as the naive value the ledger is read
    back into. *)
Definition datetime_of_day (day : Z) : datetime :=
  {| wall := ((day - 1) * us_per_day)%Z; utcoffset := None |}.

(** The historical date used when the ledger has no record. *)
Definition sentinel_date : datetime := datetime_ymd 1900 1 1.

(** ** The two catalogue filters *)

Definition Hospitals : pystr := of_string "Hospitals".
Definition key_theme : pystr := of_string "theme".
Definition key_modified : pystr := of_string "modified".
Definition key_distribution : pystr := of_string "distribution".
Definition key_downloadURL : pystr := of_string "downloadURL".

(** The test of [filter_hospital_entries]: ["Hospitals" in d["theme"]]. *)
Definition theme_test (d : json) : result bool :=
  (theme <- getitem_str d key_theme ;;
   contains Hospitals theme)%result.

Fixpoint filter_hospital_loop (ds : list json) : result (list json) :=
  match ds with
  | [] => Ok []
  | d :: rest =>
      match theme_test d with
      | Ok true => (kept <- filter_hospital_loop rest ;; Ok (d :: kept))%result
      | Ok false => filter_hospital_loop rest
      | Raise e =>
          if handled_by [KeyError; TypeError] e then filter_hospital_loop rest
          else Raise e
      end
  end.

Definition filter_hospital_entries (dataset_list : json) : result (list json) :=
  (ds <- iterate dataset_list ;; filter_hospital_loop ds)%result.

Section Filters.

(** [datetime.fromisoformat] on a string: [None] is its [ValueError].
    Which strings it accepts depends on the Python version, so it is a
    parameter here. *)
Variable fromisoformat : pystr -> option datetime.

(** [datetime.fromisoformat(d["modified"])]. *)
Definition parse_modified (d : json) : result datetime :=
  (v <- getitem_str d key_modified ;;
   match v with
   | JStr s =>
       match fromisoformat s with
       | Some t => Ok t
       | None => Raise ValueError
       end
   | _ => Raise TypeError
   end)%result.

Fixpoint filter_modified_entries (dataset_list : list json)
  (last_run_date : datetime) : result (list json) :=
  match dataset_list with
  | [] => Ok []
  | d :: rest =>
      match parse_modified d with
      | Raise e =>
          if handled_by [KeyError; TypeError; ValueError] e
          then filter_modified_entries rest last_run_date
          else Raise e
      | Ok modified =>
          (newer <- datetime_gt modified last_run_date ;;
           kept <- filter_modified_entries rest last_run_date ;;
           Ok (if newer then d :: kept else kept))%result
      end
  end.

End Filters.

(** A [fromisoformat] for the two forms every Python version since 3.7
    reads alike, [YYYY-MM-DD] and [YYYY-MM-DDTHH:MM:SS] with an optional
    [.ffffff] and an optional [+HH:MM] or [-HH:MM]; it is used to run the
    filters on concrete descriptors. *)
Definition digit_val (c : char) : option Z :=
  if is_digit c then Some (Z.of_N c - 48)%Z else None.

Fixpoint digits_val (acc : Z) (s : pystr) : option Z :=
  match s with
  | [] => Some acc
  | c :: s' =>
      match digit_val c with
      | Some d => digits_val (acc * 10 + d)%Z s'
      | None => None
      end
  end.

Definition number (s : pystr) : option Z :=
  match s with
  | [] => None
  | _ => digits_val 0%Z s
  end.

Definition obind {A B : Type} (o : option A) (k : A -> option B) : option B :=
  match o with
  | Some a => k a
  | None => None
  end.

Definition parse_date (s : pystr) : option Z :=
  match s with
  | [y1; y2; y3; y4; 45; m1; m2; 45; d1; d2] =>
      obind (number [y1; y2; y3; y4]) (fun y =>
      obind (number [m1; m2]) (fun m =>
      obind (number [d1; d2]) (fun d =>
      if ((1 <=? y) && (1 <=? m) && (m <=? 12) && (1 <=? d)
          && (d <=? days_in_month y m))%Z
      then Some (ymd2ord y m d) else None)))
  | _ => None
  end.

Definition parse_hms (s : pystr) : option Z :=
  match s with
  | [h1; h2; 58; m1; m2; 58; s1; s2] =>
      obind (number [h1; h2]) (fun h =>
      obind (number [m1; m2]) (fun m =>
      obind (number [s1; s2]) (fun sec =>
      if ((h <? 24) && (m <? 60) && (sec <? 60))%Z
      then Some (((h * 60 + m) * 60 + sec) * 1000000)%Z else None)))
  | _ => None
  end.

Definition parse_fraction (s : pystr) : option Z :=
  match s with
  | [] => Some 0%Z
  | [46; f1; f2; f3; f4; f5; f6] => number [f1; f2; f3; f4; f5; f6]
  | _ => None
  end.

Definition parse_offset (s : pystr) : option (option Z) :=
  match s with
  | [] => Some None
  | [sign; h1; h2; 58; m1; m2] =>
      obind (number [h1; h2]) (fun h =>
      obind (number [m1; m2]) (fun m =>
      if ((h <? 24) && (m <? 60))%Z then
        let off := ((h * 60 + m) * 60 * 1000000)%Z in
        if sign =? 43 then Some (Some off)
        else if sign =? 45 then Some (Some (- off)%Z)
        else None
      else None))
  | _ => None
  end.

Definition is_sign (c : char) : bool := (c =? 43) || (c =? 45).

Fixpoint break_at (p : char -> bool) (s : pystr) : pystr * pystr :=
  match s with
  | [] => ([], [])
  | c :: s' =>
      if p c then ([], s)
      else let (a, b) := break_at p s' in (c :: a, b)
  end.

Definition fromisoformat_basic (s : pystr) : option datetime :=
  obind (parse_date (firstn 10 s)) (fun day =>
  match skipn 10 s with
  | [] => Some (datetime_of_day day)
  | _ :: time =>
      let (clock, tz) := break_at is_sign time in
      obind (parse_hms (firstn 8 clock)) (fun t =>
      obind (parse_fraction (skipn 8 clock)) (fun f =>
      obind (parse_offset tz) (fun off =>
      Some {| wall := ((day - 1) * us_per_day + t + f)%Z; utcoffset := off |})))
  end).

(** ** The filters as the specification words them *)

(** Theme filter, as the specification words it: the theme field is a
    list that has the target among its elements. *)
Definition theme_is_list_with (target : pystr) (d : json) : Prop :=
  exists bindings items,
    d = JObj bindings
    /\ dict_get key_theme bindings = Some (JArr items)
    /\ In (JStr target) items.

(** Theme filter, as the code decides it: [in] on a list is membership,
    on a string the substring test, on an object the test for a key. *)
Definition theme_holds (target : pystr) (theme : json) : bool :=
  match theme with
  | JArr items => existsb (str_eq_json target) items
  | JStr s => is_substring target s
  | JObj bindings => existsb (pystr_eqb target) (map fst bindings)
  | _ => false
  end.

Definition keeps_theme (d : json) : bool :=
  match d with
  | JObj bindings =>
      match dict_get key_theme bindings with
      | Some theme => theme_holds Hospitals theme
      | None => false
      end
  | _ => false
  end.

(** The instant a datetime denotes, a naive one read as UTC. *)
Definition instant (t : datetime) : Z :=
  match utcoffset t with
  | Some off => (wall t - off)%Z
  | None => wall t
  end.

(** Two datetimes Python can order: both naive or both aware. *)
Definition comparable (a b : datetime) : Prop :=
  utcoffset a = None <-> utcoffset b = None.

Definition newer_than (fromisoformat : pystr -> option datetime)
  (cutoff : datetime) (d : json) : bool :=
  match d with
  | JObj bindings =>
      match dict_get key_modified bindings with
      | Some (JStr s) =>
          match fromisoformat s with
          | Some t => (instant cutoff <? instant t)%Z
          | None => false
          end
      | _ => false
      end
  | _ => false
  end.

(** A descriptor that only has a [modified] field. *)
Definition modified_at (s : string) : json :=
  JObj [(key_modified, JStr (of_string s))].

(** ** csv.reader and csv.writer, default dialect *)

(** The default ("excel") dialect: comma, double quote, doubled quotes
    inside a quoted field, no escape character, not strict, minimal
    quoting, CR LF after each written row. *)
Definition delimiter : char := 44.
Definition quotechar : char := 34.
Definition CR : char := 13.
Definition LF : char := 10.
Definition lineterminator : pystr := [CR; LF].
Definition field_limit : N := 131072.

Definition is_newline (c : char) : bool := (c =? LF) || (c =? CR).

(** The states of the reader's automaton that this dialect can reach. *)
Inductive parser_state : Type :=
| START_RECORD
| START_FIELD
| IN_FIELD
| IN_QUOTED_FIELD
| QUOTE_IN_QUOTED_FIELD
| EAT_CRNL.

Record reader : Type := {
  state : parser_state;
  field : pystr;
  fields : list pystr
}.

Definition set_state (st : parser_state) (r : reader) : reader :=
  {| state := st; field := field r; fields := fields r |}.

Definition parse_reset : reader :=
  {| state := START_RECORD; field := []; fields := [] |}.

Definition parse_save_field (r : reader) : reader :=
  {| state := state r; field := []; fields := fields r ++ [field r] |}.

Definition parse_add_char (r : reader) (c : char) : result reader :=
  if field_limit <=? N.of_nat (length (field r)) then Raise CsvError
  else Ok {| state := state r; field := field r ++ [c]; fields := fields r |}.

(** The case [START_FIELD] of the automaton; [START_RECORD] falls through
    to it.  The character [None] is the end of a line. *)
Definition start_field (r : reader) (c : option char) : result reader :=
  match c with
  | None => Ok (set_state START_RECORD (parse_save_field r))
  | Some ch =>
      if is_newline ch then Ok (set_state EAT_CRNL (parse_save_field r))
      else if ch =? quotechar then Ok (set_state IN_QUOTED_FIELD r)
      else if ch =? delimiter then Ok (parse_save_field r)
      else (r' <- parse_add_char r ch ;; Ok (set_state IN_FIELD r'))%result
  end.

Definition parse_process_char (r : reader) (c : option char) : result reader :=
  match state r with
  | START_RECORD =>
      match c with
      | None => Ok r
      | Some ch =>
          if is_newline ch then Ok (set_state EAT_CRNL r)
          else start_field (set_state START_FIELD r) c
      end
  | START_FIELD => start_field r c
  | IN_FIELD =>
      match c with
      | None => Ok (set_state START_RECORD (parse_save_field r))
      | Some ch =>
          if is_newline ch then Ok (set_state EAT_CRNL (parse_save_field r))
          else if ch =? delimiter then Ok (set_state START_FIELD (parse_save_field r))
          else parse_add_char r ch
      end
  | IN_QUOTED_FIELD =>
      match c with
      | None => Ok r
      | Some ch =>
          if ch =? quotechar then Ok (set_state QUOTE_IN_QUOTED_FIELD r)
          else parse_add_char r ch
      end
  | QUOTE_IN_QUOTED_FIELD =>
      match c with
      | None => Ok (set_state START_RECORD (parse_save_field r))
      | Some ch =>
          if ch =? quotechar then
            (r' <- parse_add_char r ch ;; Ok (set_state IN_QUOTED_FIELD r'))%result
          else if ch =? delimiter then Ok (set_state START_FIELD (parse_save_field r))
          else if is_newline ch then Ok (set_state EAT_CRNL (parse_save_field r))
          else (r' <- parse_add_char r ch ;; Ok (set_state IN_FIELD r'))%result
      end
  | EAT_CRNL =>
      match c with
      | None => Ok (set_state START_RECORD r)
      | Some ch => if is_newline ch then Ok r else Raise CsvError
      end
  end.

Fixpoint process_chars (r : reader) (line : pystr) : result reader :=
  match line with
  | [] => Ok r
  | c :: line' =>
      (r' <- parse_process_char r (Some c) ;; process_chars r' line')%result
  end.

(** One line of input: its characters, then the end of line. *)
Definition process_line (r : reader) (line : pystr) : result reader :=
  (r' <- process_chars r line ;; parse_process_char r' None)%result.

Definition at_start_record (r : reader) : bool :=
  match state r with
  | START_RECORD => true
  | _ => false
  end.

Definition in_quoted_field (r : reader) : bool :=
  match state r with
  | IN_QUOTED_FIELD => true
  | _ => false
  end.

Definition is_empty {A : Type} (l : list A) : bool :=
  match l with
  | [] => true
  | _ => false
  end.

(** [list(reader)]: lines are consumed until the automaton is back at the
    start of a record, which yields one row; at the end of the input a
    pending field or an open quoted field still yields its row. *)
Fixpoint reader_rows (r : reader) (lines : list pystr) : result (list (list pystr)) :=
  match lines with
  | [] =>
      if negb (is_empty (field r)) || in_quoted_field r
      then Ok [fields (parse_save_field r)]
      else Ok []
  | line :: rest =>
      (r' <- process_line r line ;;
       if at_start_record r' then
         (rows <- reader_rows parse_reset rest ;; Ok (fields r' :: rows))
       else reader_rows r' rest)%result
  end.

(** The lines [io.StringIO(text)] iterates over: split after each LF. *)
Fixpoint split_lines (cur : pystr) (text : pystr) : list pystr :=
  match text with
  | [] => if is_empty cur then [] else [cur]
  | c :: text' =>
      if c =? LF then (cur ++ [c]) :: split_lines [] text'
      else split_lines (cur ++ [c]) text'
  end.

(** [list(csv.reader(io.StringIO(text)))]. *)
Definition csv_reader (text : pystr) : result (list (list pystr)) :=
  reader_rows parse_reset (split_lines [] text).

(** The writer quotes a field that holds the delimiter, the quote
    character or a character of the line terminator. *)
Definition is_special (c : char) : bool :=
  (c =? delimiter) || (c =? quotechar) || existsb (N.eqb c) lineterminator.

Definition double_quotes (f : pystr) : pystr :=
  flat_map (fun c => if c =? quotechar then [quotechar; quotechar] else [c]) f.

Definition join_append_data (f : pystr) : pystr :=
  if existsb is_special f then quotechar :: double_quotes f ++ [quotechar]
  else f.

Fixpoint join_fields (row : list pystr) : pystr :=
  match row with
  | [] => []
  | [f] => join_append_data f
  | f :: rest => join_append_data f ++ delimiter :: join_fields rest
  end.

(** [writer.writerow(row)]: a record that would be empty although the row
    has a field is written as an empty quoted field. *)
Definition writerow (row : list pystr) : pystr :=
  let rec := join_fields row in
  (if negb (is_empty row) && is_empty rec then [quotechar; quotechar] else rec)
    ++ lineterminator.

Definition writerows (rows : list (list pystr)) : pystr :=
  concat (map writerow rows).

(** ** process_file *)

(** [url.rsplit("/", 1)[-1]]: what follows the last slash. *)
Definition last_segment (url : pystr) : pystr :=
  fold_left (fun acc c => if c =? 47 then [] else acc ++ [c]) url [].

(** What [process_file] makes of the decoded body of the response: the
    text it writes. *)
Definition process_text (csv_text : pystr) : result pystr :=
  (rows <- csv_reader csv_text ;;
   match rows with
   | [] => Raise IndexError
   | header :: data_rows =>
       let processed_header := map to_snake_case header in
       Ok (writerow processed_header ++ writerows data_rows)
   end)%result.

(** A file written under [output/]: its name and its text. *)
Definition file : Type := (pystr * pystr)%type.

Section Worker.

(** [requests.get(url)], [raise_for_status()] and
    [response.content.decode("utf-8")]: the decoded body, or what one of
    the three raised. *)
Variable download : pystr -> result pystr.

(** Opening [output/<name>] for writing fails when the name is empty:
    the path is then the directory itself, which [main] has created.
    This is the only failure of the file stage that is modelled: for
    any other name the file is taken to be opened and written. *)
Definition process_file (url : pystr) : result file :=
  (csv_text <- download url ;;
   out <- process_text csv_text ;;
   let name := last_segment url in
   if is_empty name then Raise OSError else Ok (name, out))%result.

End Worker.

(** ** The run ledger and the state of a run *)

(** A row of [run_list.csv]: the calendar day of the run, written as
    [YYYY-MM-DD] and held here as its ordinal, and the count. *)
Record RunRecord : Type := {
  run_date : Z;
  processed_count : Z
}.

(** The ledger file: its header line and its rows, in order. *)
Record ledger_file : Type := {
  ledger_header : list pystr;
  ledger_rows : list RunRecord
}.

Definition ledger_columns : list pystr :=
  [of_string "run_date"; of_string "processed_count"].

(** What the script prints. *)
Inductive event : Type :=
| PrintCutoff (day : Z)
| PrintResult (path : pystr)
| PrintError (url : pystr) (e : exn)
| PrintCounts (all hospital modified : Z)
| PrintDone (count : Z).

(** The files and the terminal: the ledger ([None] when [run_list.csv]
    does not exist), the writes made under [output/], most recent last
    (a log of the writes, not the content of the directory: a later write
    under the same name replaces the earlier file), and the lines
    printed. *)
Record world : Type := {
  ledger : option ledger_file;
  output : list file;
  stdout : list event
}.

Definition set_ledger (l : option ledger_file) (w : world) : world :=
  {| ledger := l; output := output w; stdout := stdout w |}.

(** A computation on the world that returns or raises. *)
Definition M (A : Type) : Type := world -> result A * world.

Definition ret {A : Type} (a : A) : M A := fun w => (Ok a, w).

Definition bind {A B : Type} (m : M A) (k : A -> M B) : M B :=
  fun w =>
    match m w with
    | (Ok a, w') => k a w'
    | (Raise e, w') => (Raise e, w')
    end.

Definition lift {A : Type} (r : result A) : M A := fun w => (r, w).

Declare Scope run_scope.
Delimit Scope run_scope with run.
Notation "x <- m ;; k" := (bind m (fun x => k))
  (at level 61, m at next level, right associativity) : run_scope.
Notation "m ;; k" := (bind m (fun _ => k))
  (at level 61, right associativity) : run_scope.

Definition print (e : event) : M unit :=
  fun w => (Ok tt, {| ledger := ledger w; output := output w;
                      stdout := stdout w ++ [e] |}).

Definition write_files (fs : list file) : M unit :=
  fun w => (Ok tt, {| ledger := ledger w; output := output w ++ fs;
                      stdout := stdout w |}).

(** [METADATA_PATH.exists()]. *)
Definition metadata_exists : M bool :=
  fun w => (Ok (match ledger w with Some _ => true | None => false end), w).

(** Creating the ledger with its header line. *)
Definition write_header : M unit :=
  fun w => (Ok tt, set_ledger (Some {| ledger_header := ledger_columns;
                                       ledger_rows := [] |}) w).

(** [pd.read_csv(METADATA_PATH, parse_dates=["run_date"])]: the rows, when
    the file is there and has the column. *)
Definition read_csv : M (list RunRecord) :=
  fun w =>
    match ledger w with
    | None => (Raise OSError, w)
    | Some f =>
        if existsb (pystr_eqb (of_string "run_date")) (ledger_header f)
        then (Ok (ledger_rows f), w)
        else (Raise ValueError, w)
    end.

(** [df["run_date"].max()]: [None] is [NaT], the maximum of no date. *)
Fixpoint column_max (days : list Z) : option Z :=
  match days with
  | [] => None
  | d :: rest =>
      match column_max rest with
      | None => Some d
      | Some m => Some (Z.max d m)
      end
  end.

Definition get_last_run_date : M datetime :=
  (present <- metadata_exists ;;
   (if present then ret tt else write_header) ;;
   df <- read_csv ;;
   let max_date := column_max (map run_date df) in
   ret (match max_date with
        | None => sentinel_date
        | Some day => datetime_of_day day
        end))%run.

(** Appending a row; opening for appending creates a missing file.  The
    append itself is taken to succeed. *)
Definition update_run_metadata (run_date : datetime) (processed_count : Z) : M unit :=
  fun w =>
    let new_row := {| run_date := day_of run_date;
                      processed_count := processed_count |} in
    let f := match ledger w with
             | Some f => f
             | None => {| ledger_header := []; ledger_rows := [] |}
             end in
    (Ok tt, set_ledger (Some {| ledger_header := ledger_header f;
                                ledger_rows := ledger_rows f ++ [new_row] |}) w).

(** ** main *)

(** [dataset["distribution"][0]["downloadURL"].strip()]. *)
Definition download_url (dataset : json) : result pystr :=
  (distribution <- getitem_str dataset key_distribution ;;
   first <- getitem_0 distribution ;;
   url <- getitem_str first key_downloadURL ;;
   match url with
   | JStr s => Ok (strip isspace s)
   | _ => Raise AttributeError
   end)%result.

Fixpoint build_url_list (modified_datasets : list json) : result (list pystr) :=
  match modified_datasets with
  | [] => Ok []
  | dataset :: rest =>
      (url <- download_url dataset ;;
       urls <- build_url_list rest ;;
       Ok (url :: urls))%result
  end.

(** A finished future: the URL it was submitted with and what
    [process_file] returned or raised. *)
Definition future : Type := (pystr * result file)%type.

(** What surrounds a run: the catalogue response, the downloads, the
    clock, the parser of the standard library, and the order in which the
    pool's futures complete. *)
Record environment : Type := {
  get_file_data : result json;
  download : pystr -> result pystr;
  today : datetime;
  fromisoformat : pystr -> option datetime;
  as_completed : list future -> list future
}.

Definition written (f : future) : list file :=
  match snd f with
  | Ok out => [out]
  | Raise _ => []
  end.

(** The loop over the completed futures. *)
Fixpoint collect (futures : list future) (processed_file_count : Z) : M Z :=
  match futures with
  | [] => ret processed_file_count
  | (url, outcome) :: rest =>
      let processed_file_count := (processed_file_count + 1)%Z in
      (match outcome with
       | Ok (path, _) => print (PrintResult path)
       | Raise e => print (PrintError url e)
       end ;;
       collect rest processed_file_count)%run
  end.

(** The run.  Creating the [output] directory and the pool itself are
    taken to succeed; the pool's workers have written their files by the
    time the completed futures are collected. *)
Definition main (env : environment) : M unit :=
  (last_run_date <- get_last_run_date ;;
   print (PrintCutoff (day_of last_run_date)) ;;
   all_datasets <- lift (get_file_data env) ;;
   hospital_datasets <- lift (filter_hospital_entries all_datasets) ;;
   modified_datasets <-
     lift (filter_modified_entries (fromisoformat env) hospital_datasets last_run_date) ;;
   url_list <- lift (build_url_list modified_datasets) ;;
   processed_file_count <-
     (if (0 <? Z.of_nat (length url_list))%Z then
        let future_to_file :=
          map (fun f => (f, process_file (download env) f)) url_list in
        let completed := as_completed env future_to_file in
        (write_files (flat_map written completed) ;;
         collect completed 0%Z)
      else ret 0%Z) ;;
   n_all <- lift (py_len all_datasets) ;;
   print (PrintCounts n_all (Z.of_nat (length hospital_datasets))
            (Z.of_nat (length modified_datasets))) ;;
   update_run_metadata (today env) processed_file_count ;;
   print (PrintDone processed_file_count))%run.

(** The number of futures whose result was returned: the success count
    of the specification. *)
Definition success_count (futures : list future) : Z :=
  Z.of_nat (length (filter (fun f => match snd f with Ok _ => true | Raise _ => false end)
                      futures)).

Definition empty_world : world :=
  {| ledger := None; output := []; stdout := [] |}.

(** A world whose ledger was created by the script and holds [rows]. *)
Definition ledger_world (rows : list RunRecord) (out : list file)
  (log : list event) : world :=
  {| ledger := Some {| ledger_header := ledger_columns; ledger_rows := rows |};
     output := out; stdout := log |}.

(** The line the collecting loop prints for a finished future. *)
Definition log_of (f : future) : event :=
  match f with
  | (_, Ok (path, _)) => PrintResult path
  | (url, Raise e) => PrintError url e
  end.

(** The ledger after a row was appended. *)
Definition appended (f : ledger_file) (r : RunRecord) : ledger_file :=
  {| ledger_header := ledger_header f; ledger_rows := ledger_rows f ++ [r] |}.

(** ** Concrete catalogues and environments *)

Definition descriptor (theme modified url : string) : json :=
  JObj [(key_theme, JArr [JStr (of_string theme)]);
        (key_modified, JStr (of_string modified));
        (key_distribution,
          JArr [JObj [(key_downloadURL, JStr (of_string url))]])].

(** The catalogue of the end-to-end example: another theme, a hospital
    dataset older than the cutoff, a hospital dataset newer than it. *)
Definition catalog_three : json :=
  JArr [descriptor "Nursing homes" "2024-05-01" "https://data.example/nh.csv";
        descriptor "Hospitals" "1899-12-31" "https://data.example/old.csv";
        descriptor "Hospitals" "2024-05-01" "https://data.example/new.csv"].

(** A hospital dataset newer than the cutoff, without [distribution]. *)
Definition descriptor_without_distribution : json :=
  JObj [(key_theme, JArr [JStr Hospitals]);
        (key_modified, JStr (of_string "2024-05-01"))].

(** The same with an empty [distribution]. *)
Definition descriptor_empty_distribution : json :=
  JObj [(key_theme, JArr [JStr Hospitals]);
        (key_modified, JStr (of_string "2024-05-01"));
        (key_distribution, JArr [])].

Definition noon_2024_06_01 : datetime :=
  {| wall := ((ymd2ord 2024 6 1 - 1) * us_per_day + 43200000000)%Z;
     utcoffset := None |}.

Definition environment_of (catalog : json) (download : pystr -> result pystr)
  : environment :=
  {| get_file_data := Ok catalog;
     download := download;
     today := noon_2024_06_01;
     fromisoformat := fromisoformat_basic;
     as_completed := fun futures => futures |}.

(** Every download fails. *)
Definition unreachable (url : pystr) : result pystr := Raise RequestError.

(** Every download returns the same two-line file. *)
Definition small_file (url : pystr) : result pystr :=
  Ok (of_string "Facility ID,Hospital's Name" ++ [LF] ++ of_string "1,General" ++ [LF]).

(** Two hospital datasets newer than the cutoff; the first download
    succeeds and the second fails. *)
Definition catalog_two : json :=
  JArr [descriptor "Hospitals" "2024-05-01" "https://data.example/a.csv";
        descriptor "Hospitals" "2024-05-02" "https://data.example/b.csv"].

Definition first_only (url : pystr) : result pystr :=
  if pystr_eqb url (of_string "https://data.example/a.csv")
  then small_file url else Raise RequestError.

(** ** The reader as a function of the text *)

(** The rows [reader_rows] yields, read off the text one character at a
    time: [r] is the automaton after the characters of the current line
    read so far, [pending] tells whether there are any. *)
Fixpoint stream (r : reader) (pending : bool) (text : pystr)
  : result (list (list pystr)) :=
  match text with
  | [] =>
      if pending then
        (r' <- parse_process_char r None ;;
         if at_start_record r' then Ok [fields r'] else reader_rows r' [])%result
      else reader_rows r []
  | c :: text' =>
      (r' <- parse_process_char r (Some c) ;;
       if c =? LF then
         (r'' <- parse_process_char r' None ;;
          if at_start_record r'' then
            (rows <- stream parse_reset false text' ;; Ok (fields r'' :: rows))
          else stream r'' false text')
       else stream r' true text')%result
  end.

(** The rows read once the row [fs] is complete and [rest] remains. *)
Definition after_row (fs : list pystr) (rest : pystr) : result (list (list pystr)) :=
  (rows <- stream parse_reset false rest ;; Ok (fs :: rows))%result.

(** The states in which the automaton expects a field. *)
Definition field_start (st : parser_state) : Prop :=
  st = START_RECORD \/ st = START_FIELD.

(** A field the reader can hold. *)
Definition within_limit (f : pystr) : Prop :=
  (N.of_nat (length f) <= field_limit)%N.

(** ** Byte-identity of the data rows, as the specification words it *)

(** The text after the first line. *)
Fixpoint after_first_line (text : pystr) : pystr :=
  match text with
  | [] => []
  | c :: text' => if c =? LF then text' else after_first_line text'
  end.

Definition is_suffix (a s : pystr) : bool := is_prefix (rev a) (rev s).

(** The reader holds no field beyond the limit. *)
Definition reader_ok (r : reader) : Prop :=
  within_limit (field r) /\ Forall within_limit (fields r).

(** A source file with LF line ends and a quoted field. *)
Definition unix_source : pystr :=
  of_string "Facility ID,Name" ++ [LF]
    ++ [quotechar] ++ of_string "10" ++ [quotechar] ++ of_string ",General" ++ [LF].

(** ** Further definitions used by the properties below *)

(** The characters of a URL other than the slash. *)
Definition no_slash (s : pystr) : bool := forallb (fun c => negb (c =? 47)) s.

(** The futures the pool of [main] hands back for a list of URLs. *)
Definition completed_futures (env : environment) (url_list : list pystr) : list future :=
  match url_list with
  | [] => []
  | _ => as_completed env (map (fun f => (f, process_file (download env) f)) url_list)
  end.

(** A computation that leaves the ledger as it found it. *)
Definition keeps_ledger {A : Type} (m : M A) : Prop :=
  forall w r w', m w = (r, w') -> ledger w' = ledger w.

(** A computation that at most appends rows to an existing ledger: none
    when it raises, one dated [day] when it returns. *)
Definition appends_one_row (day : Z) (m : M unit) : Prop :=
  forall w r w' f,
    ledger w = Some f -> m w = (r, w') ->
    exists extra,
      ledger w' = Some {| ledger_header := ledger_header f;
                          ledger_rows := ledger_rows f ++ extra |}
      /\ match r with
         | Ok _ => exists c, extra = [{| run_date := day; processed_count := c |}]
         | Raise _ => extra = []
         end.

(** A catalogue response that is an object, not a list. *)
Definition error_payload : json :=
  JObj [(of_string "message", JStr (of_string "Service unavailable"))].

(** A ledger that is absent or carries the header the script writes. *)
Definition ledger_well_formed (w : world) : Prop :=
  match ledger w with
  | None => True
  | Some f => ledger_header f = ledger_columns
  end.
(** * Properties *)

(** ** Header normalization *)

(** Turns boolean character tests into linear arithmetic. *)
Ltac char_unfold :=
  unfold is_token_char, is_alnum, is_lower, is_upper, is_digit, is_underscore,
    underscore, isspace, is_removed_punct, lower_char in *.

Ltac bool_to_prop :=
  repeat (rewrite ?orb_true_iff, ?andb_true_iff, ?orb_false_iff, ?andb_false_iff,
            ?negb_true_iff, ?negb_false_iff,
            ?N.leb_le, ?N.leb_gt, ?N.eqb_eq, ?N.eqb_neq in * ).

Ltac char_solve := char_unfold; bool_to_prop; lia.

Lemma token_char_not_space c :
  is_token_char c = true -> is_underscore c = false -> isspace c = false.
Proof. char_solve. Qed.

Lemma token_char_not_punct c :
  is_token_char c = true -> is_removed_punct c = false.
Proof. char_solve. Qed.

Lemma token_char_alnum_or_us c :
  is_token_char c = true -> is_alnum c = false -> c = underscore.
Proof. char_solve. Qed.

Lemma token_char_lower c : is_token_char c = true -> lower_char c = c.
Proof.
  unfold lower_char. destruct (is_upper c) eqn:E; [|reflexivity].
  intros H. exfalso. revert E H. char_solve.
Qed.

Lemma alnum_not_underscore c : is_alnum c = true -> is_underscore c = false.
Proof. char_solve. Qed.

Lemma lower_char_token c :
  is_alnum c || is_underscore c = true -> is_token_char (lower_char c) = true.
Proof.
  unfold lower_char. destruct (is_upper c) eqn:E; revert E; char_solve.
Qed.

Lemma lower_char_underscore c :
  is_underscore (lower_char c) = is_underscore c.
Proof.
  unfold lower_char. destruct (is_upper c) eqn:E; [|reflexivity].
  assert (is_underscore c = false) as -> by (revert E; char_solve).
  revert E. char_solve.
Qed.

(** The examples of the specification. *)
Example to_snake_case_ex1 :
  to_snake_case (of_string "Hospital's Name (2024)") = of_string "hospitals_name_2024".
Proof. reflexivity. Qed.

Example to_snake_case_ex2 :
  to_snake_case (of_string "  Facility  ID  ") = of_string "facility_id".
Proof. reflexivity. Qed.

Example to_snake_case_ex3 :
  to_snake_case (of_string "100%-Compliant?") = of_string "100_compliant".
Proof. reflexivity. Qed.

(** *** Stripping *)

Lemma lstrip_fixed p s : starts_with p s = false -> lstrip p s = s.
Proof. destruct s as [|c s]; simpl; [reflexivity|]. now intros ->. Qed.

Lemma lstrip_starts p s : starts_with p (lstrip p s) = false.
Proof.
  induction s as [|c s IH]; simpl; [reflexivity|].
  destruct (p c) eqn:E; [exact IH|]. simpl. exact E.
Qed.

Lemma lstrip_forallb q p s :
  forallb q s = true -> forallb q (lstrip p s) = true.
Proof.
  induction s as [|c s IH]; simpl; [reflexivity|].
  intros H. apply andb_true_iff in H as [Hc Hs].
  destruct (p c); [auto|]. simpl. now rewrite Hc, Hs.
Qed.

Lemma lstrip_has_repeat q p s :
  has_repeat q s = false -> has_repeat q (lstrip p s) = false.
Proof.
  induction s as [|c s IH]; simpl; [reflexivity|].
  intros H. apply orb_false_iff in H as [Hc Hs].
  destruct (p c); [auto|]. simpl. now rewrite Hc, Hs.
Qed.

Lemma rstrip_cons p c s :
  rstrip p (c :: s) = [] \/ rstrip p (c :: s) = c :: rstrip p s.
Proof.
  simpl. destruct (rstrip p s); [destruct (p c)|]; auto.
Qed.

Lemma rstrip_fixed p s : ends_with p s = false -> rstrip p s = s.
Proof.
  induction s as [|c s IH]; [reflexivity|].
  destruct s as [|c' s].
  - simpl. now intros ->.
  - intros H. change (ends_with p (c' :: s) = false) in H.
    specialize (IH H). change (rstrip p (c :: c' :: s))
      with (match rstrip p (c' :: s) with
            | [] => if p c then [] else [c]
            | r => c :: r
            end).
    now rewrite IH.
Qed.

Lemma rstrip_ends p s : ends_with p (rstrip p s) = false.
Proof.
  induction s as [|c s IH]; simpl; [reflexivity|].
  destruct (rstrip p s) as [|c' r].
  - destruct (p c) eqn:E; simpl; auto.
  - exact IH.
Qed.

Lemma rstrip_starts q p s :
  starts_with q s = false -> starts_with q (rstrip p s) = false.
Proof.
  destruct s as [|c s]; [reflexivity|].
  destruct (rstrip_cons p c s) as [-> | ->]; simpl; auto.
Qed.

Lemma rstrip_forallb q p s :
  forallb q s = true -> forallb q (rstrip p s) = true.
Proof.
  induction s as [|c s IH]; [reflexivity|].
  intros H. simpl in H. apply andb_true_iff in H as [Hc Hs].
  destruct (rstrip_cons p c s) as [-> | ->]; simpl; [reflexivity|].
  now rewrite Hc, IH.
Qed.

Lemma rstrip_has_repeat q p s :
  has_repeat q s = false -> has_repeat q (rstrip p s) = false.
Proof.
  induction s as [|c s IH]; [reflexivity|].
  intros H. simpl in H. apply orb_false_iff in H as [Hc Hs].
  destruct (rstrip_cons p c s) as [-> | ->]; simpl; [reflexivity|].
  rewrite (IH Hs), orb_false_r.
  apply andb_false_iff in Hc as [Hc | Hc]; [now rewrite Hc|].
  now rewrite (rstrip_starts q p s Hc), andb_false_r.
Qed.

Lemma strip_fixed p s :
  starts_with p s = false -> ends_with p s = false -> strip p s = s.
Proof.
  intros H1 H2. unfold strip. rewrite (lstrip_fixed _ _ H1).
  now apply rstrip_fixed.
Qed.

Lemma lstrip_length p s : (length (lstrip p s) <= length s)%nat.
Proof. induction s as [|c s IH]; simpl; [lia|]. destruct (p c); simpl; lia. Qed.

Lemma rstrip_length p s : (length (rstrip p s) <= length s)%nat.
Proof.
  induction s as [|c s IH]; [simpl; lia|].
  destruct (rstrip_cons p c s) as [-> | ->]; simpl; lia.
Qed.

Lemma strip_length p s : (length (strip p s) <= length s)%nat.
Proof.
  unfold strip. pose proof (rstrip_length p (lstrip p s)).
  pose proof (lstrip_length p s). lia.
Qed.

(** *** The two substitutions *)

Lemma re_sub_class_fixed cls s :
  forallb (fun c => negb (cls c)) s = true -> re_sub_class cls [] s = s.
Proof.
  induction s as [|c s IH]; simpl; [reflexivity|].
  intros H. apply andb_true_iff in H as [Hc Hs].
  apply negb_true_iff in Hc. rewrite Hc. simpl. now rewrite (IH Hs).
Qed.

Lemma re_sub_class_length cls s :
  (length (re_sub_class cls [] s) <= length s)%nat.
Proof.
  induction s as [|c s IH]; simpl; [lia|].
  destruct (cls c); simpl; lia.
Qed.

(** After the second substitution only letters, digits and single
    underscores remain. *)
Lemma re_sub_runs_shape b s :
  forallb (fun c => is_alnum c || is_underscore c)
    (re_sub_runs nonalnum [underscore] b s) = true
  /\ has_repeat is_underscore (re_sub_runs nonalnum [underscore] b s) = false
  /\ (b = true ->
      starts_with is_underscore (re_sub_runs nonalnum [underscore] b s) = false).
Proof.
  revert b. induction s as [|c s IH]; intros b; [simpl; auto|].
  cbn [re_sub_runs]. change (nonalnum c) with (negb (is_alnum c)).
  destruct (is_alnum c) eqn:E; cbn [negb].
  - destruct (IH false) as (H1 & H2 & _).
    cbn [forallb has_repeat starts_with].
    rewrite E, H1, H2, (alnum_not_underscore c E). auto.
  - destruct (IH true) as (H1 & H2 & H3). specialize (H3 eq_refl).
    destruct b; [auto|].
    cbn [app forallb has_repeat starts_with].
    rewrite H1, H2, H3. repeat split; auto; discriminate.
Qed.

Lemma re_sub_runs_ascii b s :
  Forall (fun c => c < 128) (re_sub_runs nonalnum [underscore] b s).
Proof.
  apply Forall_forall. intros c Hc.
  destruct (re_sub_runs_shape b s) as (H & _).
  rewrite forallb_forall in H. specialize (H c Hc). revert H. char_solve.
Qed.

Lemma re_sub_runs_fixed b s :
  forallb is_token_char s = true ->
  has_repeat is_underscore s = false ->
  (b = true -> starts_with is_underscore s = false) ->
  re_sub_runs nonalnum [underscore] b s = s.
Proof.
  revert b. induction s as [|c s IH]; intros b Hall Hrep Hb; [reflexivity|].
  simpl in Hall, Hrep |- *.
  apply andb_true_iff in Hall as [Hc Hs].
  apply orb_false_iff in Hrep as [Hcs Hrep].
  change (nonalnum c) with (negb (is_alnum c)).
  destruct (is_alnum c) eqn:E; simpl.
  - f_equal. apply IH; auto. discriminate.
  - pose proof (token_char_alnum_or_us c Hc E) as ->.
    simpl in Hcs. destruct b.
    + specialize (Hb eq_refl). discriminate.
    + f_equal. apply IH; auto.
Qed.

Lemma re_sub_runs_length b s :
  (length (re_sub_runs nonalnum [underscore] b s) <= length s)%nat.
Proof.
  revert b. induction s as [|c s IH]; intros b; simpl; [lia|].
  destruct (nonalnum c); [destruct b|]; simpl;
    [specialize (IH true) | specialize (IH true) | specialize (IH false)]; lia.
Qed.

(** *** Lowercasing *)

Lemma lower_fixed s : forallb is_token_char s = true -> lower s = s.
Proof.
  induction s as [|c s IH]; simpl; [reflexivity|].
  intros H. apply andb_true_iff in H as [Hc Hs].
  now rewrite (token_char_lower c Hc), (IH Hs).
Qed.

Lemma lower_token_chars s :
  forallb (fun c => is_alnum c || is_underscore c) s = true ->
  forallb is_token_char (lower s) = true.
Proof.
  induction s as [|c s IH]; simpl; [reflexivity|].
  intros H. apply andb_true_iff in H as [Hc Hs].
  now rewrite (lower_char_token c Hc), (IH Hs).
Qed.

Lemma lower_starts s :
  starts_with is_underscore (lower s) = starts_with is_underscore s.
Proof. destruct s; simpl; [reflexivity|]. apply lower_char_underscore. Qed.

Lemma lower_has_repeat s :
  has_repeat is_underscore (lower s) = has_repeat is_underscore s.
Proof.
  induction s as [|c s IH]; simpl; [reflexivity|].
  fold (lower s). now rewrite IH, lower_char_underscore, lower_starts.
Qed.

(** *** Shape and fixed points of [to_snake_case] *)

Lemma to_snake_case_shape name : header_token (to_snake_case name) = true.
Proof.
  unfold to_snake_case, re_sub_plus.
  set (s := re_sub_class is_removed_punct [] (strip isspace name)).
  destruct (re_sub_runs_shape false s) as (H1 & H2 & _).
  fold nonalnum. set (r := re_sub_runs nonalnum [underscore] false s) in *.
  unfold header_token, strip.
  rewrite rstrip_forallb, rstrip_starts, rstrip_ends, rstrip_has_repeat; auto.
  - apply lstrip_has_repeat. now rewrite lower_has_repeat.
  - apply lstrip_starts.
  - apply lstrip_forallb. now apply lower_token_chars.
Qed.

Lemma starts_with_weaken (p q r : char -> bool) s :
  (forall c, q c = true -> r c = false -> p c = false) ->
  forallb q s = true -> starts_with r s = false -> starts_with p s = false.
Proof.
  intros Hpq. destruct s as [|c s]; simpl; [reflexivity|].
  intros H Hr. apply andb_true_iff in H as [Hc _]. auto.
Qed.

Lemma ends_with_weaken (p q r : char -> bool) s :
  (forall c, q c = true -> r c = false -> p c = false) ->
  forallb q s = true -> ends_with r s = false -> ends_with p s = false.
Proof.
  intros Hpq. induction s as [|c s IH]; [reflexivity|].
  intros H Hr. simpl in H. apply andb_true_iff in H as [Hc Hs].
  destruct s as [|c' s]; simpl in *; auto.
Qed.

Lemma to_snake_case_fixed t : header_token t = true -> to_snake_case t = t.
Proof.
  unfold header_token. intros H.
  repeat (apply andb_true_iff in H as [H ?]).
  repeat match goal with
         | X : negb _ = true |- _ => apply negb_true_iff in X
         end.
  unfold to_snake_case, re_sub_plus. fold nonalnum.
  rewrite (strip_fixed isspace t).
  - rewrite re_sub_class_fixed.
    + rewrite re_sub_runs_fixed by (auto; discriminate).
      rewrite lower_fixed by assumption. now apply strip_fixed.
    + apply forallb_forall. intros c Hc. rewrite forallb_forall in H.
      apply negb_true_iff, token_char_not_punct; auto.
  - apply starts_with_weaken with (q := is_token_char) (r := is_underscore);
      auto using token_char_not_space.
  - apply ends_with_weaken with (q := is_token_char) (r := is_underscore);
      auto using token_char_not_space.
Qed.

Lemma to_snake_case_length name :
  (length (to_snake_case name) <= length name)%nat.
Proof.
  unfold to_snake_case, re_sub_plus. fold nonalnum.
  pose proof (strip_length isspace name).
  pose proof (re_sub_class_length is_removed_punct (strip isspace name)).
  pose proof (re_sub_runs_length false
                (re_sub_class is_removed_punct [] (strip isspace name))).
  match goal with |- (length (strip _ (lower ?r)) <= _)%nat =>
    pose proof (strip_length is_underscore (lower r));
    assert (length (lower r) = length r) by apply length_map
  end.
  lia.
Qed.

(** C4: header normalization is idempotent: normalizing a normalized name
    changes nothing. *)
Theorem to_snake_case_idempotent (x : pystr) :
  to_snake_case (to_snake_case x) = to_snake_case x.
Proof. apply to_snake_case_fixed, to_snake_case_shape. Qed.

(** C8: header normalization is a total function whose result always has
    the HeaderToken shape: lowercase ASCII letters, digits and underscores
    only, no underscore first or last, no two underscores in a row. *)
Theorem to_snake_case_header_token (x : pystr) :
  exists t,
    to_snake_case x = t
    /\ Forall (fun c => is_lower c = true \/ is_digit c = true \/ c = 95) t
    /\ starts_with is_underscore t = false
    /\ ends_with is_underscore t = false
    /\ has_repeat is_underscore t = false.
Proof.
  exists (to_snake_case x). split; [reflexivity|].
  pose proof (to_snake_case_shape x) as H. unfold header_token in H.
  repeat (apply andb_true_iff in H as [H ?]).
  repeat match goal with
         | X : negb _ = true |- _ => apply negb_true_iff in X
         end.
  repeat split; auto.
  apply Forall_forall. intros c Hc. rewrite forallb_forall in H.
  specialize (H c Hc). unfold is_token_char, is_underscore in H.
  repeat (apply orb_true_iff in H as [H | H]); auto.
  right; right. now apply N.eqb_eq in H.
Qed.

(** ** The theme filter *)

Lemma pystr_eqb_eq a b : pystr_eqb a b = true <-> a = b.
Proof.
  unfold pystr_eqb. destruct (list_eq_dec N.eq_dec a b); split;
    congruence.
Qed.

Lemma pystr_eqb_refl a : pystr_eqb a a = true.
Proof. now apply pystr_eqb_eq. Qed.

Lemma str_eq_json_true a v : str_eq_json a v = true <-> v = JStr a.
Proof.
  destruct v; simpl; try (split; [discriminate | congruence]).
  rewrite pystr_eqb_eq. split; congruence.
Qed.

(** The loop never raises: the only exceptions of its test are the two
    it handles. *)
Lemma theme_test_keeps d :
  match theme_test d with
  | Ok b => b = keeps_theme d
  | Raise e => handled_by [KeyError; TypeError] e = true /\ keeps_theme d = false
  end.
Proof.
  unfold theme_test, keeps_theme.
  destruct d as [| | | |items|bindings]; simpl; auto.
  destruct (dict_get key_theme bindings) as [theme|]; simpl; auto.
  destruct theme; simpl; auto.
Qed.

Lemma filter_hospital_loop_filter ds :
  filter_hospital_loop ds = Ok (filter keeps_theme ds).
Proof.
  induction ds as [|d ds IH]; [reflexivity|].
  cbn [filter_hospital_loop filter rbind].
  pose proof (theme_test_keeps d) as H.
  destruct (theme_test d) as [[|]|e].
  - rewrite <- H, IH. reflexivity.
  - now rewrite <- H.
  - destruct H as [-> ->]. exact IH.
Qed.

Lemma keeps_theme_iff d :
  keeps_theme d = true <->
  exists bindings theme,
    d = JObj bindings
    /\ dict_get key_theme bindings = Some theme
    /\ ((exists items, theme = JArr items /\ In (JStr Hospitals) items)
        \/ (exists s, theme = JStr s /\ is_substring Hospitals s = true)
        \/ (exists bs, theme = JObj bs /\ In Hospitals (map fst bs))).
Proof.
  split.
  - destruct d as [| | | |items|bindings]; simpl; try discriminate.
    destruct (dict_get key_theme bindings) as [theme|] eqn:E; [|discriminate].
    intros H. exists bindings, theme. repeat split; auto.
    destruct theme as [| | |s|items|bs]; simpl in H; try discriminate.
    + right; left. eauto.
    + left. exists items. split; [reflexivity|].
      apply existsb_exists in H as (x & Hx & Hx'). apply str_eq_json_true in Hx'.
      now subst.
    + right; right. exists bs. split; [reflexivity|].
      apply existsb_exists in H as (x & Hx & Hx'). apply pystr_eqb_eq in Hx'.
      now subst.
  - intros (bindings & theme & -> & E & H). simpl. rewrite E.
    destruct H as [(items & -> & H) | [(s & -> & H) | (bs & -> & H)]]; simpl.
    + apply existsb_exists. exists (JStr Hospitals). split; [assumption|].
      now apply str_eq_json_true.
    + exact H.
    + apply existsb_exists. exists Hospitals. split; [assumption|].
      apply pystr_eqb_refl.
Qed.

(** X25: what the theme filter does on a list of descriptors: it never
    raises and retains exactly the descriptors that are objects whose
    theme field is a list with "Hospitals" among its elements, a string
    with "Hospitals" as a substring, or an object with "Hospitals" as a
    key; a descriptor without a theme field, or whose theme is null, a
    boolean or a number, is dropped. *)
Theorem filter_hospital_entries_keeps (ds : list json) :
  filter_hospital_entries (JArr ds) = Ok (filter keeps_theme ds)
  /\ forall d,
       keeps_theme d = true <->
       exists bindings theme,
         d = JObj bindings
         /\ dict_get key_theme bindings = Some theme
         /\ ((exists items, theme = JArr items /\ In (JStr Hospitals) items)
             \/ (exists s, theme = JStr s /\ is_substring Hospitals s = true)
             \/ (exists bs, theme = JObj bs /\ In Hospitals (map fst bs))).
Proof.
  split.
  - unfold filter_hospital_entries. simpl. apply filter_hospital_loop_filter.
  - apply keeps_theme_iff.
Qed.

(** C6 on the code: a descriptor whose theme field is the string
    "General Hospitals", not a list of tags, is retained, because [in] on
    a string is the substring test; the docstring asks for the datasets
    whose theme is "Hospitals", and the same tag inside a list is dropped.
    Retention is therefore not membership in a list. *)
Lemma filter_hospital_entries_string_theme :
  let d := JObj [(key_theme, JStr (of_string "General Hospitals"))] in
  filter_hospital_entries (JArr [d]) = Ok [d]
  /\ ~ theme_is_list_with Hospitals d
  /\ ~ (forall ds kept x,
          filter_hospital_entries (JArr ds) = Ok kept ->
          (In x kept <-> In x ds /\ theme_is_list_with Hospitals x)).
Proof.
  set (d := JObj [(key_theme, JStr (of_string "General Hospitals"))]).
  assert (Hrun : filter_hospital_entries (JArr [d]) = Ok [d]) by reflexivity.
  assert (Hnot : ~ theme_is_list_with Hospitals d).
  { intros (bindings & items & Hd & Hget & _).
    injection Hd as <-. vm_compute in Hget. discriminate. }
  repeat split; auto.
  intros H. specialize (H [d] [d] d Hrun).
  apply Hnot, H. now left.
Qed.

(** The examples of the specification for the theme filter. *)
Example filter_hospital_entries_empty : filter_hospital_entries (JArr []) = Ok [].
Proof. reflexivity. Qed.

Example filter_hospital_entries_two_tags :
  let d := JObj [(key_theme, JArr [JStr Hospitals; JStr (of_string "Quality")])] in
  filter_hospital_entries (JArr [d; JObj []]) = Ok [d].
Proof. reflexivity. Qed.

(** ** The recency filter *)

Section RecencyFilter.

Variable parser : pystr -> option datetime.

(** Whatever [datetime.parser(d["modified"])] raises is handled
    by the loop. *)
Lemma parse_modified_raises d e :
  parse_modified parser d = Raise e ->
  handled_by [KeyError; TypeError; ValueError] e = true.
Proof.
  unfold parse_modified.
  destruct d as [| | | |items|bindings]; simpl;
    try (intros [= <-]; reflexivity).
  destruct (dict_get key_modified bindings) as [v|]; simpl;
    [|intros [= <-]; reflexivity].
  destruct v as [| | |s| |]; try (intros [= <-]; reflexivity).
  destruct (parser s); [discriminate|].
  intros [= <-]; reflexivity.
Qed.

Lemma parse_modified_newer cutoff d :
  newer_than parser cutoff d =
  match parse_modified parser d with
  | Ok t => (instant cutoff <? instant t)%Z
  | Raise _ => false
  end.
Proof.
  unfold parse_modified, newer_than.
  destruct d as [| | | |items|bindings]; simpl; auto.
  destruct (dict_get key_modified bindings) as [v|]; simpl; auto.
  destruct v as [| | |s| |]; auto.
  destruct (parser s); auto.
Qed.

Lemma datetime_gt_comparable t cutoff :
  comparable t cutoff ->
  datetime_gt t cutoff = Ok (instant cutoff <? instant t)%Z.
Proof.
  unfold comparable, datetime_gt, instant.
  destruct (utcoffset t), (utcoffset cutoff); intros [H1 H2];
    try reflexivity.
  - specialize (H2 eq_refl). discriminate.
  - specialize (H1 eq_refl). discriminate.
Qed.

Lemma datetime_gt_incomparable t cutoff :
  ~ comparable t cutoff -> datetime_gt t cutoff = Raise TypeError.
Proof.
  unfold comparable, datetime_gt.
  destruct (utcoffset t), (utcoffset cutoff); intros H; try reflexivity;
    exfalso; apply H; split; congruence.
Qed.

Lemma filter_modified_entries_filter ds cutoff :
  Forall (fun d => forall t,
              parse_modified parser d = Ok t -> comparable t cutoff) ds ->
  filter_modified_entries parser ds cutoff =
  Ok (filter (newer_than parser cutoff) ds).
Proof.
  induction 1 as [|d ds Hd _ IH]; [reflexivity|].
  cbn [filter_modified_entries filter].
  rewrite parse_modified_newer.
  destruct (parse_modified parser d) as [t|e] eqn:E.
  - rewrite (datetime_gt_comparable t cutoff (Hd t eq_refl)), IH.
    simpl. now destruct (instant cutoff <? instant t)%Z.
  - now rewrite (parse_modified_raises d e E).
Qed.

(** The filter fails as soon as one parsed timestamp cannot be ordered
    against the cutoff. *)
Lemma filter_modified_entries_raises ds cutoff :
  Exists (fun d => exists t,
              parse_modified parser d = Ok t /\ ~ comparable t cutoff) ds ->
  filter_modified_entries parser ds cutoff = Raise TypeError.
Proof.
  induction ds as [|d ds IH]; intros H; [inversion H|].
  cbn [filter_modified_entries].
  destruct (parse_modified parser d) as [t|e] eqn:E.
  - destruct (datetime_gt t cutoff) as [b|e'] eqn:G.
    + inversion H as [? ? (t' & Ht' & Hc)|? ? H']; subst.
      * rewrite E in Ht'. injection Ht' as <-.
        rewrite (datetime_gt_incomparable t cutoff Hc) in G. discriminate.
      * simpl. now rewrite (IH H').
    + simpl. unfold datetime_gt in G.
      destruct (utcoffset t), (utcoffset cutoff); congruence.
  - rewrite (parse_modified_raises d e E).
    inversion H as [? ? (t' & Ht' & _)|? ? H']; subst; [congruence|auto].
Qed.

End RecencyFilter.

(** X24: when every [modified] value that parses can be ordered against
    the cutoff (both timezone-naive or both timezone-aware), the recency
    filter returns, in order, exactly the
    descriptors whose [modified] field parses to a timestamp strictly
    later than the cutoff; a timestamp equal to the cutoff is excluded,
    and a descriptor whose [modified] is missing or does not parse is
    dropped without failing the filter. *)
Theorem filter_modified_entries_strictly_newer
  (fromisoformat : pystr -> option datetime) (ds : list json) (cutoff : datetime) :
  Forall (fun d => forall t,
              parse_modified fromisoformat d = Ok t -> comparable t cutoff) ds ->
  filter_modified_entries fromisoformat ds cutoff =
    Ok (filter (newer_than fromisoformat cutoff) ds)
  /\ (forall d,
        newer_than fromisoformat cutoff d = true <->
        exists t, parse_modified fromisoformat d = Ok t
                  /\ (instant cutoff < instant t)%Z)
  /\ (forall d t,
        parse_modified fromisoformat d = Ok t ->
        instant t = instant cutoff ->
        newer_than fromisoformat cutoff d = false)
  /\ (forall d e,
        parse_modified fromisoformat d = Raise e ->
        newer_than fromisoformat cutoff d = false).
Proof.
  intros H. split; [now apply filter_modified_entries_filter|].
  split; [|split].
  - intros d. rewrite parse_modified_newer.
    destruct (parse_modified fromisoformat d) as [t|e].
    + rewrite Z.ltb_lt. split; [eauto|]. now intros (t' & [= <-] & Ht).
    + split; [discriminate|]. now intros (t' & Ht' & _).
  - intros d t Ht Heq. rewrite parse_modified_newer, Ht, Heq.
    apply Z.ltb_irrefl.
  - intros d e He. now rewrite parse_modified_newer, He.
Qed.

Lemma filter_modified_entries_strictly_newer_witness :
  let cutoff := datetime_ymd 2024 6 1 in
  let ds := [modified_at "2024-05-31"; modified_at "2024-06-01";
             modified_at "2024-06-01T00:00:00.000001";
             modified_at "yesterday"; JObj []] in
  filter_modified_entries fromisoformat_basic ds cutoff =
    Ok [modified_at "2024-06-01T00:00:00.000001"].
Proof.
  intros cutoff ds.
  refine (eq_trans
            (proj1 (filter_modified_entries_strictly_newer
                      fromisoformat_basic ds cutoff _)) _).
  - unfold ds. repeat apply Forall_cons; try apply Forall_nil;
      intros t Ht; vm_compute in Ht; try discriminate;
      injection Ht as <-; vm_compute; tauto.
  - reflexivity.
Defined.

(** C5 on the code: a [modified] value that parses as an ISO-8601
    timestamp with a UTC offset makes the filter raise [TypeError] against
    the naive cutoff the ledger yields: the comparison stands outside the
    [try].  The descriptor is not retained although its timestamp is later
    than the cutoff, and the filter fails instead of returning. *)
Lemma filter_modified_entries_aware_raises :
  let d := modified_at "2024-06-01T00:00:00+00:00" in
  parse_modified fromisoformat_basic d =
    Ok {| wall := 63852796800000000; utcoffset := Some 0%Z |}
  /\ (instant sentinel_date < 63852796800000000 - 0)%Z
  /\ filter_modified_entries fromisoformat_basic [d] sentinel_date = Raise TypeError
  /\ ~ (exists kept,
          filter_modified_entries fromisoformat_basic [d] sentinel_date = Ok kept
          /\ In d kept).
Proof.
  repeat split; try reflexivity.
  intros (kept & H & _). vm_compute in H. discriminate.
Qed.

(** The boundary of the specification: equal to the cutoff is excluded, one
    microsecond later is included. *)
Example filter_modified_entries_boundary :
  filter_modified_entries fromisoformat_basic
    [modified_at "2024-06-01"; modified_at "2024-06-01T00:00:00.000001"]
    (datetime_ymd 2024 6 1)
  = Ok [modified_at "2024-06-01T00:00:00.000001"].
Proof. reflexivity. Qed.

(** ** The run ledger *)

Lemma column_max_spec days :
  match column_max days with
  | None => days = []
  | Some m => In m days /\ Forall (fun d => (d <= m)%Z) days
  end.
Proof.
  induction days as [|d rest IH]; [reflexivity|].
  simpl. destruct (column_max rest) as [m|].
  - destruct IH as [Hin Hall]. split.
    + destruct (Z.max_spec d m) as [[_ ->] | [_ ->]]; auto.
    + constructor; [lia|].
      eapply Forall_impl; [|exact Hall]. simpl. intros; lia.
  - subst rest. split; [now left|]. constructor; [lia|constructor].
Qed.

Lemma day_of_datetime_of_day day : day_of (datetime_of_day day) = day.
Proof.
  unfold day_of, datetime_of_day, us_per_day. simpl.
  rewrite Z.div_mul by discriminate. lia.
Qed.

Lemma get_last_run_date_existing rows out log :
  get_last_run_date (ledger_world rows out log) =
  (Ok (match column_max (map run_date rows) with
       | None => sentinel_date
       | Some day => datetime_of_day day
       end), ledger_world rows out log).
Proof. reflexivity. Qed.

(** C7: reading the cutoff from a ledger that does not exist creates it
    with its header only and returns 1900-01-01; from an existing ledger
    it returns the latest run date of its rows, or 1900-01-01 when it has
    no row; and after one row for the date [day] is appended to a ledger
    without rows, the cutoff read is that date (for a datetime [t] with a
    time of day, the midnight of its date). *)
Theorem get_last_run_date_cutoff (rows : list RunRecord) (day c : Z)
  (t : datetime) (out : list file) (log : list event) :
  get_last_run_date {| ledger := None; output := out; stdout := log |}
    = (Ok (datetime_ymd 1900 1 1), ledger_world [] out log)
  /\ (exists cutoff,
        get_last_run_date (ledger_world rows out log)
          = (Ok cutoff, ledger_world rows out log)
        /\ match rows with
           | [] => cutoff = datetime_ymd 1900 1 1
           | _ => exists r, In r rows
                            /\ cutoff = datetime_of_day (run_date r)
                            /\ Forall (fun r' => (run_date r' <= run_date r)%Z) rows
           end)
  /\ (let (_, w) := update_run_metadata (datetime_of_day day) c (ledger_world [] out log) in
      w = ledger_world [{| run_date := day; processed_count := c |}] out log
      /\ get_last_run_date w = (Ok (datetime_of_day day), w))
  /\ (let (_, w) := update_run_metadata t c (ledger_world [] out log) in
      get_last_run_date w = (Ok (datetime_of_day (day_of t)), w)).
Proof.
  split; [reflexivity|]. split.
  - rewrite get_last_run_date_existing. eexists. split; [reflexivity|].
    pose proof (column_max_spec (map run_date rows)) as H.
    destruct (column_max (map run_date rows)) as [m|].
    + destruct H as [Hin Hall]. apply in_map_iff in Hin as (r & <- & Hr).
      destruct rows as [|r0 rows']; [contradiction|].
      exists r. split; [exact Hr|]. split; [reflexivity|].
      rewrite Forall_forall in Hall |- *. intros r' Hr'.
      apply Hall, in_map, Hr'.
    + destruct rows; [reflexivity|discriminate].
  - split.
    + unfold update_run_metadata, ledger_world, set_ledger. simpl.
      rewrite day_of_datetime_of_day. split; reflexivity.
    + reflexivity.
Qed.

(** The example of the specification: a fresh ledger gives 1900-01-01, and
    after the row for 2024-06-01 with count 5 the cutoff is 2024-06-01. *)
Example get_last_run_date_after_append :
  let (_, w1) := get_last_run_date empty_world in
  let (_, w2) := update_run_metadata (datetime_ymd 2024 6 1) 5 w1 in
  fst (get_last_run_date w2) = Ok (datetime_ymd 2024 6 1).
Proof. reflexivity. Qed.

(** ** The run as a whole *)

Lemma bind_ok {A B : Type} (m : M A) (k : A -> M B) w a w' :
  m w = (Ok a, w') -> bind m k w = k a w'.
Proof. unfold bind. now intros ->. Qed.

Lemma bind_raise {A B : Type} (m : M A) (k : A -> M B) w e w' :
  m w = (Raise e, w') -> bind m k w = (Raise e, w').
Proof. unfold bind. now intros ->. Qed.

(** The collecting loop counts every future it is handed, whatever its
    outcome, and touches neither the ledger nor the output files. *)
Lemma collect_counts futures n w :
  collect futures n w =
  (Ok (n + Z.of_nat (length futures))%Z,
   {| ledger := ledger w; output := output w;
      stdout := stdout w ++ map log_of futures |}).
Proof.
  revert n w. induction futures as [|[url outcome] rest IH]; intros n w.
  - simpl. unfold ret. rewrite Z.add_0_r, app_nil_r. now destruct w.
  - cbn [collect]. unfold bind.
    assert (Hp : (match outcome with
                  | Ok (path, _) => print (PrintResult path)
                  | Raise e => print (PrintError url e)
                  end) w
                 = (Ok tt, {| ledger := ledger w; output := output w;
                              stdout := stdout w ++ [log_of (url, outcome)] |})).
    { destruct outcome as [[path out]|e]; reflexivity. }
    rewrite Hp, IH. cbn [ledger output stdout length map].
    rewrite <- app_assoc. f_equal. f_equal. lia.
Qed.

Lemma build_url_list_length ds urls :
  build_url_list ds = Ok urls -> length urls = length ds.
Proof.
  revert urls. induction ds as [|d ds IH]; intros urls; simpl.
  - now intros [= <-].
  - destruct (download_url d) as [url|e]; [|discriminate]. simpl.
    destruct (build_url_list ds) as [us|e]; [|discriminate]. simpl.
    intros [= <-]. simpl. now rewrite (IH us eq_refl).
Qed.

Lemma get_last_run_date_ledger w t w1 :
  get_last_run_date w = (Ok t, w1) ->
  exists f, ledger w1 = Some f /\ output w1 = output w /\ stdout w1 = stdout w.
Proof.
  unfold get_last_run_date, bind, metadata_exists, write_header, read_csv, ret.
  destruct w as [[f|] out log]; simpl.
  - destruct (existsb _ (ledger_header f)); intros [= _ <-]; simpl; eauto.
  - intros [= _ <-]; simpl; eauto.
Qed.

Lemma iterate_len v l : iterate v = Ok l -> exists n, py_len v = Ok n.
Proof. destruct v; simpl; try discriminate; eauto. Qed.

Lemma filter_hospital_entries_len v l :
  filter_hospital_entries v = Ok l -> exists n, py_len v = Ok n.
Proof.
  unfold filter_hospital_entries.
  destruct (iterate v) as [ds|e] eqn:E; [|discriminate].
  intros _. eapply iterate_len, E.
Qed.

(** What [main] does once the ledger, the catalogue, the two filters and
    the extraction of the URLs have gone through. *)
Lemma main_run env w cutoff w1 all hosp modi urls :
  (forall l, Permutation (as_completed env l) l) ->
  get_last_run_date w = (Ok cutoff, w1) ->
  get_file_data env = Ok all ->
  filter_hospital_entries all = Ok hosp ->
  filter_modified_entries (fromisoformat env) hosp cutoff = Ok modi ->
  build_url_list modi = Ok urls ->
  exists w' f,
    main env w = (Ok tt, w')
    /\ ledger w1 = Some f
    /\ ledger w' =
       Some (appended f {| run_date := day_of (today env);
                           processed_count := Z.of_nat (length urls) |})
    /\ In (PrintDone (Z.of_nat (length urls))) (stdout w').
Proof.
  intros Hperm Hget Hcat Hhosp Hmod Hurls.
  destruct (get_last_run_date_ledger _ _ _ Hget) as (f & Hf & _).
  destruct (filter_hospital_entries_len _ _ Hhosp) as (n & Hn).
  unfold main.
  rewrite (bind_ok _ _ _ _ _ Hget).
  unfold bind at 1. cbn [print].
  unfold bind at 1, lift at 1. rewrite Hcat.
  unfold bind at 1, lift at 1. rewrite Hhosp.
  unfold bind at 1, lift at 1. rewrite Hmod.
  unfold bind at 1, lift at 1. rewrite Hurls.
  set (futures := as_completed env
                    (map (fun u => (u, process_file (download env) u)) urls)).
  assert (Hlen : length futures = length urls).
  { unfold futures. rewrite (Permutation_length (Hperm _)). apply length_map. }
  destruct (0 <? Z.of_nat (length urls))%Z eqn:E.
  - unfold bind at 1. unfold bind at 1. cbn [write_files].
    rewrite collect_counts. cbn [ledger output stdout].
    unfold bind at 1, lift at 1. rewrite Hn.
    unfold bind, print, update_run_metadata, set_ledger. cbn [ledger output stdout].
    rewrite Hf, Hlen. cbn [Z.add].
    eexists; eexists. split; [reflexivity|]. split; [reflexivity|].
    split; [reflexivity|]. cbn [stdout]. apply in_or_app. right. now left.
  - unfold bind at 1, ret at 1.
    unfold bind at 1, lift at 1. rewrite Hn.
    unfold bind, print, update_run_metadata, set_ledger. cbn [ledger output stdout].
    rewrite Hf.
    assert (Z.of_nat (length urls) = 0%Z) as -> by (apply Z.ltb_ge in E; lia).
    eexists; eexists. split; [reflexivity|]. split; [reflexivity|].
    split; [reflexivity|]. cbn [stdout]. apply in_or_app. right. now left.
Qed.

(** C9: in every run that gets to the ledger update, the count written to
    the ledger is the number of download URLs dispatched, which is the
    number of descriptors that survived both filters, whatever the
    downloads returned or raised. *)
Theorem main_writes_dispatched_count (env : environment) (w w1 : world)
  (cutoff : datetime) (all : json) (hosp modi : list json) (urls : list pystr) :
  (forall l, Permutation (as_completed env l) l) ->
  get_last_run_date w = (Ok cutoff, w1) ->
  get_file_data env = Ok all ->
  filter_hospital_entries all = Ok hosp ->
  filter_modified_entries (fromisoformat env) hosp cutoff = Ok modi ->
  build_url_list modi = Ok urls ->
  exists w' f,
    main env w = (Ok tt, w')
    /\ ledger w1 = Some f
    /\ ledger w' =
       Some (appended f {| run_date := day_of (today env);
                           processed_count := Z.of_nat (length urls) |})
    /\ length urls = length modi.
Proof.
  intros Hperm Hget Hcat Hhosp Hmod Hurls.
  destruct (main_run env w cutoff w1 all hosp modi urls Hperm Hget Hcat Hhosp
              Hmod Hurls) as (w' & f & Hmain & Hf & Hw' & _).
  exists w', f. repeat split; auto. eapply build_url_list_length, Hurls.
Qed.

Lemma main_writes_dispatched_count_witness :
  exists w' f,
    main (environment_of catalog_two first_only) empty_world = (Ok tt, w')
    /\ ledger (ledger_world [] [] []) = Some f
    /\ ledger w' =
       Some (appended f {| run_date := 739038; processed_count := 2 |})
    /\ length [of_string "https://data.example/a.csv";
               of_string "https://data.example/b.csv"] = 2%nat.
Proof.
  apply (main_writes_dispatched_count (environment_of catalog_two first_only)
           empty_world (ledger_world [] [] []) sentinel_date catalog_two
           [descriptor "Hospitals" "2024-05-01" "https://data.example/a.csv";
            descriptor "Hospitals" "2024-05-02" "https://data.example/b.csv"]
           [descriptor "Hospitals" "2024-05-01" "https://data.example/a.csv";
            descriptor "Hospitals" "2024-05-02" "https://data.example/b.csv"]
           [of_string "https://data.example/a.csv";
            of_string "https://data.example/b.csv"]).
  - intros l. apply Permutation_refl.
  - reflexivity.
  - reflexivity.
  - reflexivity.
  - reflexivity.
  - reflexivity.
Defined.

(** C1 on the code: with the catalogue of the end-to-end example and a
    download that fails, exactly one file is dispatched, its failure is
    printed, no future returned a result, and the row appended to the
    ledger nevertheless has the count 1, which is also the count the last
    line reports. *)
Theorem main_counts_failed_download :
  let env := environment_of catalog_three unreachable in
  let url := of_string "https://data.example/new.csv" in
  main env empty_world =
    (Ok tt,
     {| ledger := Some {| ledger_header := ledger_columns;
                          ledger_rows := [{| run_date := 739038;
                                             processed_count := 1 |}] |};
        output := [];
        stdout := [PrintCutoff 693596; PrintError url RequestError;
                   PrintCounts 3 2 1; PrintDone 1] |})
  /\ success_count [(url, process_file (download env) url)] = 0%Z.
Proof. split; vm_compute; reflexivity. Qed.

(** C2 on the code: a descriptor that survives both filters but has no
    [distribution] field, or an empty one, makes the run raise while the
    URLs are extracted; no row is appended to the ledger. *)
Theorem main_aborts_without_distribution :
  main (environment_of (JArr [descriptor_without_distribution]) small_file)
       empty_world
    = (Raise KeyError, ledger_world [] [] [PrintCutoff 693596])
  /\ main (environment_of (JArr [descriptor_empty_distribution]) small_file)
          empty_world
    = (Raise IndexError, ledger_world [] [] [PrintCutoff 693596])
  /\ filter_modified_entries fromisoformat_basic
       [descriptor_without_distribution; descriptor_empty_distribution]
       sentinel_date
     = Ok [descriptor_without_distribution; descriptor_empty_distribution].
Proof. repeat split; vm_compute; reflexivity. Qed.

(** The end-to-end example with a download that succeeds: one file is
    written and the appended row has the count 1. *)
Example main_end_to_end :
  let (r, w) := main (environment_of catalog_three small_file) empty_world in
  r = Ok tt
  /\ ledger w = Some {| ledger_header := ledger_columns;
                        ledger_rows := [{| run_date := 739038;
                                           processed_count := 1 |}] |}
  /\ output w = [(of_string "new.csv",
                  of_string "facility_id,hospitals_name" ++ [CR; LF]
                    ++ of_string "1,General" ++ [CR; LF])].
Proof. vm_compute. repeat split; reflexivity. Qed.

(** ** The CSV reader and writer *)

Lemma process_chars_app r a b :
  process_chars r (a ++ b) =
  (r' <- process_chars r a ;; process_chars r' b)%result.
Proof.
  revert r. induction a as [|c a IH]; intros r; [reflexivity|].
  simpl. destruct (parse_process_char r (Some c)); simpl; auto.
Qed.

Lemma reader_rows_raise text r0 cur e :
  process_chars r0 cur = Raise e ->
  reader_rows r0 (split_lines cur text) = Raise e.
Proof.
  revert cur. induction text as [|c text IH]; intros cur H.
  - simpl. destruct cur; [discriminate|]. simpl. unfold process_line.
    now rewrite H.
  - simpl. destruct (c =? LF).
    + simpl. unfold process_line. rewrite process_chars_app, H. reflexivity.
    + apply IH. rewrite process_chars_app, H. reflexivity.
Qed.

(** Reading line by line and reading the text character by character
    yield the same rows. *)
Lemma reader_rows_stream text r0 cur r :
  process_chars r0 cur = Ok r ->
  reader_rows r0 (split_lines cur text) = stream r (negb (is_empty cur)) text.
Proof.
  revert r0 cur r. induction text as [|c text IH]; intros r0 cur r H.
  - simpl. destruct cur as [|c0 cur]; simpl.
    + injection H as <-. reflexivity.
    + unfold process_line. rewrite H. simpl.
      destruct (parse_process_char r None) as [r'|e]; simpl; [|reflexivity].
      destruct (at_start_record r'); reflexivity.
  - cbn [split_lines stream].
    destruct (parse_process_char r (Some c)) as [r'|e] eqn:E.
    + destruct (c =? LF) eqn:Ec.
      * cbn [reader_rows]. unfold process_line.
        rewrite process_chars_app, H. simpl. rewrite E. simpl.
        destruct (parse_process_char r' None) as [r''|e]; simpl; [|reflexivity].
        destruct (at_start_record r'').
        -- now rewrite (IH parse_reset [] parse_reset eq_refl).
        -- now rewrite (IH r'' [] r'' eq_refl).
      * rewrite (IH r0 (cur ++ [c]) r').
        -- now destruct cur.
        -- rewrite process_chars_app, H. simpl. now rewrite E.
    + simpl. destruct (c =? LF).
      * cbn [reader_rows]. unfold process_line.
        rewrite process_chars_app, H. simpl. now rewrite E.
      * apply reader_rows_raise. rewrite process_chars_app, H. simpl.
        now rewrite E.
Qed.

Lemma csv_reader_stream text : csv_reader text = stream parse_reset false text.
Proof. unfold csv_reader. now apply reader_rows_stream. Qed.

(** *** Reading back what the writer wrote *)

Lemma not_special c :
  is_special c = false ->
  (c =? delimiter) = false /\ (c =? quotechar) = false
  /\ is_newline c = false /\ (c =? LF) = false.
Proof.
  unfold is_special, is_newline, lineterminator, delimiter, quotechar, CR, LF.
  simpl. bool_to_prop. intros. repeat split; try lia.
Qed.

Lemma parse_add_char_ok st f fs c :
  (N.of_nat (length f) < field_limit)%N ->
  parse_add_char {| state := st; field := f; fields := fs |} c =
  Ok {| state := st; field := f ++ [c]; fields := fs |}.
Proof.
  intros H. unfold parse_add_char. cbn [field state fields].
  apply N.leb_gt in H. now rewrite H.
Qed.

(** The characters of an unquoted field are added one by one. *)
Lemma stream_plain body f fs pending rest :
  existsb is_special body = false ->
  (N.of_nat (length f + length body) <= field_limit)%N ->
  stream {| state := IN_FIELD; field := f; fields := fs |} pending (body ++ rest) =
  stream {| state := IN_FIELD; field := f ++ body; fields := fs |}
    (pending || negb (is_empty body)) rest.
Proof.
  revert f pending. induction body as [|c body IH]; intros f pending Hs Hl.
  - simpl. now rewrite app_nil_r, orb_false_r.
  - simpl in Hs. apply orb_false_iff in Hs as [Hc Hs].
    destruct (not_special c Hc) as (Hd & Hq & Hn & Hlf).
    cbn [app stream]. unfold parse_process_char. cbn [state].
    rewrite Hn, Hd, parse_add_char_ok by (simpl in Hl; lia).
    cbn [rbind]. rewrite Hlf, IH; auto.
    + rewrite <- app_assoc. cbn [app is_empty negb]. now rewrite orb_true_r.
    + rewrite length_app. simpl in *. lia.
Qed.

(** Inside quotes every character is added, a doubled quote once. *)
Lemma stream_quoted_quote f fs pending text :
  (N.of_nat (length f) < field_limit)%N ->
  stream {| state := IN_QUOTED_FIELD; field := f; fields := fs |} pending
    (quotechar :: quotechar :: text) =
  stream {| state := IN_QUOTED_FIELD; field := f ++ [quotechar]; fields := fs |}
    true text.
Proof.
  intros Hf. cbn [stream]. unfold parse_process_char at 1. cbn [state].
  change (quotechar =? quotechar) with true.
  change (quotechar =? LF) with false. cbn [rbind].
  unfold parse_process_char at 1. unfold set_state. cbn [state field fields].
  change (quotechar =? quotechar) with true. cbv iota.
  rewrite parse_add_char_ok by exact Hf. reflexivity.
Qed.

Lemma stream_quoted_char f fs pending c text :
  (N.of_nat (length f) < field_limit)%N ->
  (c =? quotechar) = false ->
  stream {| state := IN_QUOTED_FIELD; field := f; fields := fs |} pending
    (c :: text) =
  stream {| state := IN_QUOTED_FIELD; field := f ++ [c]; fields := fs |}
    (negb (c =? LF)) text.
Proof.
  intros Hf Hq. cbn [stream]. unfold parse_process_char at 1. cbn [state].
  rewrite Hq, parse_add_char_ok by exact Hf. cbn [rbind].
  destruct (c =? LF); reflexivity.
Qed.

Lemma stream_quoted body f fs pending :
  (N.of_nat (length f + length body) <= field_limit)%N ->
  exists pending',
    forall rest,
      stream {| state := IN_QUOTED_FIELD; field := f; fields := fs |} pending
        (double_quotes body ++ rest) =
      stream {| state := IN_QUOTED_FIELD; field := f ++ body; fields := fs |}
        pending' rest.
Proof.
  revert f pending. induction body as [|c body IH]; intros f pending Hl.
  - exists pending. intros rest. simpl. now rewrite app_nil_r.
  - assert (Hl' : (N.of_nat (length (f ++ [c]) + length body) <= field_limit)%N).
    { rewrite length_app. simpl in *. lia. }
    assert (Hf : (N.of_nat (length f) < field_limit)%N) by (simpl in Hl; lia).
    unfold double_quotes. cbn [flat_map]. fold (double_quotes body).
    destruct (c =? quotechar) eqn:Eq.
    + apply N.eqb_eq in Eq. subst c.
      destruct (IH (f ++ [quotechar]) true Hl') as (p & Hp).
      exists p. intros rest. rewrite <- app_assoc in Hp.
      cbn [app]. rewrite stream_quoted_quote by exact Hf. apply Hp.
    + destruct (IH (f ++ [c]) (negb (c =? LF)) Hl') as (p & Hp).
      exists p. intros rest. rewrite <- app_assoc in Hp.
      cbn [app]. rewrite stream_quoted_char by assumption. apply Hp.
Qed.

Lemma close_field_delim f fs pending rest :
  stream {| state := IN_FIELD; field := f; fields := fs |} pending
    (delimiter :: rest) =
  stream {| state := START_FIELD; field := []; fields := fs ++ [f] |} true rest.
Proof. reflexivity. Qed.

Lemma close_field_eol f fs pending rest :
  stream {| state := IN_FIELD; field := f; fields := fs |} pending
    (CR :: LF :: rest) = after_row (fs ++ [f]) rest.
Proof. reflexivity. Qed.

Lemma close_quoted_delim f fs pending rest :
  stream {| state := IN_QUOTED_FIELD; field := f; fields := fs |} pending
    (quotechar :: delimiter :: rest) =
  stream {| state := START_FIELD; field := []; fields := fs ++ [f] |} true rest.
Proof. reflexivity. Qed.

Lemma close_quoted_eol f fs pending rest :
  stream {| state := IN_QUOTED_FIELD; field := f; fields := fs |} pending
    (quotechar :: CR :: LF :: rest) = after_row (fs ++ [f]) rest.
Proof. reflexivity. Qed.

Lemma open_quoted st fs pending text :
  field_start st ->
  stream {| state := st; field := []; fields := fs |} pending (quotechar :: text) =
  stream {| state := IN_QUOTED_FIELD; field := []; fields := fs |} true text.
Proof. intros [-> | ->]; reflexivity. Qed.

Lemma open_plain st fs pending c text :
  field_start st -> is_special c = false ->
  stream {| state := st; field := []; fields := fs |} pending (c :: text) =
  stream {| state := IN_FIELD; field := [c]; fields := fs |} true text.
Proof.
  intros Hst Hc. destruct (not_special c Hc) as (Hd & Hq & Hn & Hlf).
  destruct Hst as [-> | ->]; cbn [stream]; unfold parse_process_char;
    cbn [state]; unfold start_field; rewrite ?Hn; cbn [set_state state field fields];
    rewrite Hq, Hd; unfold parse_add_char; cbn [field length N.of_nat];
    cbn [field_limit N.leb N.compare rbind set_state state field fields app];
    now rewrite Hlf.
Qed.

Lemma empty_field_delim st fs pending rest :
  field_start st ->
  stream {| state := st; field := []; fields := fs |} pending (delimiter :: rest) =
  stream {| state := START_FIELD; field := []; fields := fs ++ [[]] |} true rest.
Proof. intros [-> | ->]; reflexivity. Qed.

Lemma empty_field_eol fs pending rest :
  stream {| state := START_FIELD; field := []; fields := fs |} pending
    (CR :: LF :: rest) = after_row (fs ++ [[]]) rest.
Proof. reflexivity. Qed.

Lemma within_limit_sum (f : pystr) :
  within_limit f -> (N.of_nat (length (@nil char) + length f) <= field_limit)%N.
Proof. unfold within_limit. simpl. auto. Qed.

(** A written field followed by the delimiter is read back as that field. *)
Lemma stream_field_delim f st fs pending rest :
  field_start st -> within_limit f ->
  stream {| state := st; field := []; fields := fs |} pending
    (join_append_data f ++ delimiter :: rest) =
  stream {| state := START_FIELD; field := []; fields := fs ++ [f] |} true rest.
Proof.
  intros Hst Hl. unfold join_append_data. fold (double_quotes f).
  destruct (existsb is_special f) eqn:E.
  - cbn [app]. rewrite open_quoted by exact Hst.
    destruct (stream_quoted f [] fs true (within_limit_sum f Hl)) as (p & Hp).
    rewrite <- app_assoc, Hp. cbn [app]. apply close_quoted_delim.
  - destruct f as [|c f]; [now apply empty_field_delim|].
    simpl in E. apply orb_false_iff in E as [Hc Hf].
    cbn [app]. rewrite open_plain by assumption.
    rewrite stream_plain by (auto; unfold within_limit in Hl; simpl in *; lia).
    apply close_field_delim.
Qed.

(** A written field followed by the line terminator ends the row, unless
    nothing at all was written for the row. *)
Lemma stream_field_eol f st fs pending rest :
  st = START_FIELD \/ (st = START_RECORD /\ join_append_data f <> []) ->
  within_limit f ->
  stream {| state := st; field := []; fields := fs |} pending
    (join_append_data f ++ CR :: LF :: rest) = after_row (fs ++ [f]) rest.
Proof.
  intros Hst Hl.
  assert (Hst' : field_start st) by (unfold field_start; tauto).
  revert Hst. unfold join_append_data. fold (double_quotes f).
  destruct (existsb is_special f) eqn:E; intros Hst.
  - cbn [app]. rewrite open_quoted by exact Hst'.
    destruct (stream_quoted f [] fs true (within_limit_sum f Hl)) as (p & Hp).
    rewrite <- app_assoc, Hp. cbn [app]. apply close_quoted_eol.
  - destruct f as [|c f].
    + destruct Hst as [-> | [_ Hne]]; [apply empty_field_eol|congruence].
    + simpl in E. apply orb_false_iff in E as [Hc Hf].
      cbn [app]. rewrite open_plain by assumption.
      rewrite stream_plain by (auto; unfold within_limit in Hl; simpl in *; lia).
      apply close_field_eol.
Qed.

Lemma stream_join_fields row st fs pending rest :
  row <> [] ->
  st = START_FIELD \/ (st = START_RECORD /\ join_fields row <> []) ->
  Forall within_limit row ->
  stream {| state := st; field := []; fields := fs |} pending
    (join_fields row ++ CR :: LF :: rest) = after_row (fs ++ row) rest.
Proof.
  revert st fs pending. induction row as [|f row IH]; intros st fs pending Hne Hst Hl;
    [congruence|].
  inversion Hl as [|? ? Hf Hrow]; subst.
  destruct row as [|g more].
  - cbn [join_fields] in *. now apply stream_field_eol.
  - cbn [join_fields]. rewrite <- app_assoc. cbn [app].
    rewrite stream_field_delim by (unfold field_start; tauto).
    rewrite IH by (auto; discriminate).
    now rewrite <- app_assoc.
Qed.

Lemma join_append_data_nil f : join_append_data f = [] -> f = [].
Proof.
  unfold join_append_data. destruct (existsb is_special f); [discriminate|auto].
Qed.

(** A written row is read back as that row. *)
Lemma stream_writerow row rest :
  Forall within_limit row ->
  stream parse_reset false (writerow row ++ rest) = after_row row rest.
Proof.
  intros Hl. unfold writerow, lineterminator.
  destruct row as [|f row]; [reflexivity|].
  cbn [is_empty negb andb].
  destruct (join_fields (f :: row)) as [|c text] eqn:E.
  - destruct row as [|g more].
    + cbn [join_fields] in E. apply join_append_data_nil in E. subst f.
      reflexivity.
    + cbn [join_fields] in E. now destruct (join_append_data f).
  - cbn [is_empty]. rewrite <- E, <- app_assoc. cbn [app].
    unfold parse_reset. rewrite stream_join_fields; auto; [discriminate|].
    right. split; [reflexivity|]. rewrite E. discriminate.
Qed.

Lemma stream_writerows rows :
  Forall (Forall within_limit) rows ->
  stream parse_reset false (writerows rows) = Ok rows.
Proof.
  induction 1 as [|row rows Hrow _ IH]; [reflexivity|].
  unfold writerows. cbn [map concat]. fold (writerows rows).
  rewrite (stream_writerow row _ Hrow). unfold after_row. now rewrite IH.
Qed.

(** Reading what the writer wrote gives the rows back. *)
Lemma csv_reader_writerows rows :
  Forall (Forall within_limit) rows -> csv_reader (writerows rows) = Ok rows.
Proof. intros H. rewrite csv_reader_stream. now apply stream_writerows. Qed.

(** *** The reader respects the field limit *)

Lemma parse_add_char_within r c r' :
  reader_ok r -> parse_add_char r c = Ok r' ->
  reader_ok r' /\ state r' = state r.
Proof.
  unfold parse_add_char, reader_ok, within_limit. intros [Hf Hfs].
  destruct (field_limit <=? N.of_nat (length (field r))) eqn:E; [discriminate|].
  intros [= <-]. cbn [field fields state]. apply N.leb_gt in E.
  repeat split; auto. rewrite length_app. simpl. lia.
Qed.

Lemma parse_save_field_within r : reader_ok r -> reader_ok (parse_save_field r).
Proof.
  unfold reader_ok, parse_save_field, within_limit. intros [Hf Hfs]. simpl.
  split; [unfold field_limit; lia|].
  apply Forall_app. split; [assumption|]. now constructor.
Qed.

Lemma set_state_within st r : reader_ok r -> reader_ok (set_state st r).
Proof. now unfold reader_ok, set_state. Qed.

Lemma add_then_set_within st r c r' :
  reader_ok r ->
  (x <- parse_add_char r c ;; Ok (set_state st x))%result = Ok r' ->
  reader_ok r'.
Proof.
  intros Hr. destruct (parse_add_char r c) as [x|e] eqn:E; [|discriminate].
  simpl. intros [= <-]. apply set_state_within.
  now destruct (parse_add_char_within r c x Hr E).
Qed.

Lemma parse_process_char_within r c r' :
  reader_ok r -> parse_process_char r c = Ok r' -> reader_ok r'.
Proof.
  intros Hr. unfold parse_process_char, start_field.
  destruct (state r); destruct c as [ch|];
    repeat match goal with
           | |- context [if ?b then _ else _] => destruct b
           end;
    try discriminate;
    try (intros [= <-];
         auto using set_state_within, parse_save_field_within);
    try (intros H; eapply add_then_set_within; [|exact H];
         auto using set_state_within);
    try (intros H; eapply parse_add_char_within; [|exact H]; assumption).
Qed.

Lemma reader_rows_nil_within r rows :
  reader_ok r -> reader_rows r [] = Ok rows -> Forall (Forall within_limit) rows.
Proof.
  intros Hr. simpl.
  destruct (negb (is_empty (field r)) || in_quoted_field r); intros [= <-].
  - constructor; [|constructor]. now destruct (parse_save_field_within r Hr).
  - constructor.
Qed.

Lemma parse_reset_within : reader_ok parse_reset.
Proof.
  unfold reader_ok, within_limit, parse_reset, field_limit. simpl.
  split; [lia|constructor].
Qed.

Lemma stream_within text r pending rows :
  reader_ok r -> stream r pending text = Ok rows ->
  Forall (Forall within_limit) rows.
Proof.
  revert r pending rows. induction text as [|c text IH]; intros r pending rows Hr.
  - cbn [stream]. destruct pending; [|now apply reader_rows_nil_within].
    destruct (parse_process_char r None) as [r'|e] eqn:E; [|discriminate].
    pose proof (parse_process_char_within _ _ _ Hr E) as Hr'. cbn [rbind].
    destruct (at_start_record r').
    + intros [= <-]. constructor; [apply Hr'|constructor].
    + now apply reader_rows_nil_within.
  - cbn [stream].
    destruct (parse_process_char r (Some c)) as [r'|e] eqn:E; [|discriminate].
    pose proof (parse_process_char_within _ _ _ Hr E) as Hr'. cbn [rbind].
    destruct (c =? LF); [|now apply IH].
    destruct (parse_process_char r' None) as [r''|e] eqn:E'; [|discriminate].
    pose proof (parse_process_char_within _ _ _ Hr' E') as Hr''. cbn [rbind].
    destruct (at_start_record r''); [|now apply IH].
    destruct (stream parse_reset false text) as [rows'|e] eqn:E''; [|discriminate].
    cbn [rbind]. intros [= <-]. constructor; [apply Hr''|].
    eapply IH; [apply parse_reset_within|exact E''].
Qed.

Lemma csv_reader_within text rows :
  csv_reader text = Ok rows -> Forall (Forall within_limit) rows.
Proof.
  rewrite csv_reader_stream. apply stream_within, parse_reset_within.
Qed.

(** ** process_file *)

Lemma map_to_snake_case_within header :
  Forall within_limit header -> Forall within_limit (map to_snake_case header).
Proof.
  induction 1 as [|f header Hf _ IH]; constructor; [|exact IH].
  unfold within_limit in *. pose proof (to_snake_case_length f). lia.
Qed.

Lemma process_text_inv csv_text out :
  process_text csv_text = Ok out ->
  exists header data_rows,
    csv_reader csv_text = Ok (header :: data_rows)
    /\ out = writerows (map to_snake_case header :: data_rows).
Proof.
  unfold process_text.
  destruct (csv_reader csv_text) as [[|header data_rows]|e]; try discriminate.
  simpl. intros [= <-]. now exists header, data_rows.
Qed.

(** C3, as the code has it: for every file processed successfully, the text
    written is the CSV writer's rendering of the normalized header row
    followed by the data rows parsed from the source; read back, it yields
    the normalized header and then exactly the fields of every data row of
    the source, in order, none changed, added or dropped. *)
Theorem process_text_keeps_data_rows (csv_text out : pystr) :
  process_text csv_text = Ok out ->
  exists header data_rows,
    csv_reader csv_text = Ok (header :: data_rows)
    /\ out = writerow (map to_snake_case header) ++ writerows data_rows
    /\ csv_reader out = Ok (map to_snake_case header :: data_rows).
Proof.
  intros H. destruct (process_text_inv _ _ H) as (header & data_rows & Hr & ->).
  exists header, data_rows. split; [exact Hr|]. split; [reflexivity|].
  apply csv_reader_writerows.
  pose proof (csv_reader_within _ _ Hr) as Hl.
  inversion Hl as [|? ? Hh Hd]; subst.
  constructor; [now apply map_to_snake_case_within|exact Hd].
Qed.

Lemma process_text_keeps_data_rows_witness :
  exists header data_rows,
    csv_reader unix_source = Ok (header :: data_rows)
    /\ of_string "facility_id,name" ++ [CR; LF] ++ of_string "10,General" ++ [CR; LF]
       = writerow (map to_snake_case header) ++ writerows data_rows
    /\ csv_reader (of_string "facility_id,name" ++ [CR; LF]
                     ++ of_string "10,General" ++ [CR; LF])
       = Ok (map to_snake_case header :: data_rows).
Proof.
  apply (process_text_keeps_data_rows unix_source
           (of_string "facility_id,name" ++ [CR; LF]
              ++ of_string "10,General" ++ [CR; LF])).
  vm_compute. reflexivity.
Defined.


(** C3, as stated, fails: a source with LF line ends and a quoted field is
    processed successfully, but its data row is written without the
    quotes and with CR LF, so the output does not end with the bytes of
    the source's data row. *)
Lemma process_text_rewrites_data_rows :
  process_text unix_source =
    Ok (of_string "facility_id,name" ++ [CR; LF] ++ of_string "10,General" ++ [CR; LF])
  /\ after_first_line unix_source =
       [quotechar] ++ of_string "10" ++ [quotechar] ++ of_string ",General" ++ [LF]
  /\ ~ (forall csv_text out,
          process_text csv_text = Ok out ->
          is_suffix (after_first_line csv_text) out = true).
Proof.
  assert (Hrun : process_text unix_source =
                   Ok (of_string "facility_id,name" ++ [CR; LF]
                         ++ of_string "10,General" ++ [CR; LF]))
    by (vm_compute; reflexivity).
  split; [exact Hrun|]. split; [reflexivity|].
  intros H. specialize (H _ _ Hrun). vm_compute in H. discriminate.
Qed.

(** C10: the raw column name of three question marks, which has no ASCII
    letter or digit, normalizes to the empty string, and a file with that
    column is written with an empty token in its header row. *)
Theorem to_snake_case_can_be_empty :
  forallb nonalnum (of_string "???") = true
  /\ to_snake_case (of_string "???") = []
  /\ process_text (of_string "???,Name" ++ [LF] ++ of_string "1,2" ++ [LF])
     = Ok (writerow [[]; of_string "name"] ++ writerow [of_string "1"; of_string "2"])
  /\ writerow [[]; of_string "name"] = of_string ",name" ++ [CR; LF].
Proof. repeat split; reflexivity. Qed.

(** * Further properties *)

(** ** to_snake_case: what it keeps and what it ignores *)

Lemma space_not_alnum c : isspace c = true -> is_alnum c = false.
Proof. char_solve. Qed.

Lemma punct_not_alnum c : is_removed_punct c = true -> is_alnum c = false.
Proof. char_solve. Qed.

Lemma underscore_not_alnum c : is_underscore c = true -> is_alnum c = false.
Proof. char_solve. Qed.

Lemma filter_lstrip (p q : char -> bool) s :
  (forall c, p c = true -> q c = false) ->
  filter q (lstrip p s) = filter q s.
Proof.
  intros H. induction s as [|c s IH]; [reflexivity|].
  simpl. destruct (p c) eqn:E; [|reflexivity].
  now rewrite (H c E).
Qed.

Lemma filter_rstrip (p q : char -> bool) s :
  (forall c, p c = true -> q c = false) ->
  filter q (rstrip p s) = filter q s.
Proof.
  intros H. induction s as [|c s IH]; [reflexivity|].
  cbn [rstrip]. destruct (rstrip p s) as [|c' r].
  - cbn [filter] in *. rewrite <- IH. destruct (p c) eqn:E.
    + now rewrite (H c E).
    + reflexivity.
  - cbn [filter] in *. now rewrite IH.
Qed.

Lemma filter_strip (p q : char -> bool) s :
  (forall c, p c = true -> q c = false) ->
  filter q (strip p s) = filter q s.
Proof.
  intros H. unfold strip. now rewrite filter_rstrip, filter_lstrip.
Qed.

Lemma filter_re_sub_class (cls q : char -> bool) s :
  (forall c, cls c = true -> q c = false) ->
  filter q (re_sub_class cls [] s) = filter q s.
Proof.
  intros H. induction s as [|c s IH]; [reflexivity|].
  unfold re_sub_class in *. cbn [flat_map filter].
  destruct (cls c) eqn:E; cbn [app filter].
  - now rewrite (H c E).
  - now rewrite IH.
Qed.

Lemma filter_re_sub_runs b s :
  filter is_alnum (re_sub_runs nonalnum [underscore] b s) = filter is_alnum s.
Proof.
  revert b. induction s as [|c s IH]; intros b; [reflexivity|].
  cbn [re_sub_runs filter]. change (nonalnum c) with (negb (is_alnum c)).
  destruct (is_alnum c) eqn:E; cbn [negb].
  - cbn [filter]. now rewrite E, IH.
  - destruct b; [apply IH|]. cbn [app filter].
    change (is_alnum underscore) with false. cbv iota. apply IH.
Qed.

Lemma lower_char_alnum c : is_alnum (lower_char c) = is_alnum c.
Proof.
  unfold lower_char. destruct (is_upper c) eqn:E; [|reflexivity].
  assert (is_alnum c = true) as -> by (revert E; char_solve).
  revert E. char_solve.
Qed.

Lemma filter_lower s :
  filter is_alnum (lower s) = lower (filter is_alnum s).
Proof.
  induction s as [|c s IH]; [reflexivity|].
  unfold lower in *. cbn [map filter]. rewrite lower_char_alnum.
  destruct (is_alnum c); cbn [map]; now rewrite IH.
Qed.

Lemma to_snake_case_alnum name :
  filter is_alnum (to_snake_case name) = lower (filter is_alnum name).
Proof.
  unfold to_snake_case, re_sub_plus.
  rewrite (filter_strip is_underscore is_alnum) by apply underscore_not_alnum.
  rewrite filter_lower, filter_re_sub_runs.
  rewrite (filter_re_sub_class is_removed_punct is_alnum) by apply punct_not_alnum.
  now rewrite (filter_strip isspace is_alnum) by apply space_not_alnum.
Qed.

(** X1: the letters and digits of a column name all survive
    normalization, in their order and lowercased; everything else is
    dropped or becomes an underscore. *)
Theorem to_snake_case_keeps_letters_and_digits (name : pystr) :
  filter is_alnum (to_snake_case name) = lower (filter is_alnum name)
  /\ Forall (fun c => is_alnum c = true \/ c = underscore) (to_snake_case name).
Proof.
  split; [apply to_snake_case_alnum|].
  pose proof (to_snake_case_shape name) as H. unfold header_token in H.
  repeat (apply andb_true_iff in H as [H _]).
  apply Forall_forall. intros c Hc. rewrite forallb_forall in H.
  specialize (H c Hc). destruct (is_alnum c) eqn:E; [now left|right].
  now apply token_char_alnum_or_us.
Qed.

Lemma filter_nil_forallb (q : char -> bool) s :
  filter q s = [] <-> forallb (fun c => negb (q c)) s = true.
Proof.
  induction s as [|c s IH]; simpl; [tauto|].
  destruct (q c); simpl; [split; discriminate|exact IH].
Qed.

Lemma all_underscore_token t :
  header_token t = true -> filter is_alnum t = [] -> t = [].
Proof.
  destruct t as [|c t]; [reflexivity|].
  unfold header_token. cbn [forallb starts_with filter].
  intros H. repeat (apply andb_true_iff in H as [H ?]). rename H into Hc.
  match goal with X : negb (is_underscore c) = true |- _ =>
    apply negb_true_iff in X; rename X into Hu end.
  destruct (is_alnum c) eqn:E; [discriminate|].
  pose proof (token_char_alnum_or_us c Hc E) as ->. discriminate.
Qed.

(** X2: the normalized name is empty exactly when the raw name has no
    ASCII letter and no digit. *)
Theorem to_snake_case_empty_iff (name : pystr) :
  to_snake_case name = [] <-> forallb nonalnum name = true.
Proof.
  pose proof (to_snake_case_alnum name) as H.
  change nonalnum with (fun c => negb (is_alnum c)).
  rewrite <- filter_nil_forallb. split.
  - intros E. rewrite E in H. simpl in H.
    unfold lower in H. symmetry in H. now apply map_eq_nil in H.
  - intros E. rewrite E in H. apply all_underscore_token; [|exact H].
    apply to_snake_case_shape.
Qed.

Lemma lstrip_map (p : char -> bool) (f : char -> char) s :
  (forall c, p (f c) = p c) -> lstrip p (map f s) = map f (lstrip p s).
Proof.
  intros H. induction s as [|c s IH]; [reflexivity|].
  simpl. rewrite H. now destruct (p c).
Qed.

Lemma rstrip_map (p : char -> bool) (f : char -> char) s :
  (forall c, p (f c) = p c) -> rstrip p (map f s) = map f (rstrip p s).
Proof.
  intros H. induction s as [|c s IH]; [reflexivity|].
  cbn [map rstrip]. rewrite IH, H.
  destruct (rstrip p s); cbn [map]; [now destruct (p c)|reflexivity].
Qed.

Lemma re_sub_class_map (cls : char -> bool) (f : char -> char) s :
  (forall c, cls (f c) = cls c) ->
  re_sub_class cls [] (map f s) = map f (re_sub_class cls [] s).
Proof.
  intros H. induction s as [|c s IH]; [reflexivity|].
  unfold re_sub_class in *. cbn [map flat_map]. rewrite H, IH.
  now destruct (cls c).
Qed.

Lemma re_sub_runs_map (f : char -> char) b s :
  (forall c, nonalnum (f c) = nonalnum c) -> f underscore = underscore ->
  re_sub_runs nonalnum [underscore] b (map f s) =
  map f (re_sub_runs nonalnum [underscore] b s).
Proof.
  intros H Hu. revert b. induction s as [|c s IH]; intros b; [reflexivity|].
  cbn [map re_sub_runs]. rewrite H.
  destruct (nonalnum c); [destruct b|]; cbn [app map]; now rewrite ?IH, ?Hu.
Qed.

Lemma lower_char_space c : isspace (lower_char c) = isspace c.
Proof.
  unfold lower_char. destruct (is_upper c) eqn:E; [|reflexivity].
  assert (isspace c = false) as -> by (revert E; char_solve).
  revert E. char_solve.
Qed.

Lemma lower_char_punct c : is_removed_punct (lower_char c) = is_removed_punct c.
Proof.
  unfold lower_char. destruct (is_upper c) eqn:E; [|reflexivity].
  assert (is_removed_punct c = false) as -> by (revert E; char_solve).
  revert E. char_solve.
Qed.

Lemma lower_char_idempotent c : lower_char (lower_char c) = lower_char c.
Proof.
  unfold lower_char. destruct (is_upper c) eqn:E.
  - assert (is_upper (c + 32) = false) as -> by (revert E; char_solve).
    reflexivity.
  - now rewrite E.
Qed.

(** X3: normalization ignores ASCII letter case: a column name and its
    lowercased form normalize to the same token. *)
Theorem to_snake_case_ignores_case (name : pystr) :
  to_snake_case (lower name) = to_snake_case name.
Proof.
  unfold to_snake_case, re_sub_plus, strip, lower.
  rewrite (lstrip_map isspace lower_char) by apply lower_char_space.
  rewrite (rstrip_map isspace lower_char) by apply lower_char_space.
  rewrite (re_sub_class_map is_removed_punct lower_char) by apply lower_char_punct.
  rewrite re_sub_runs_map.
  - rewrite map_map.
    now rewrite (map_ext _ _ (fun c => lower_char_idempotent c)).
  - intros c. unfold nonalnum. now rewrite lower_char_alnum.
  - reflexivity.
Qed.

(** X4: normalization never lengthens a column name. *)
Theorem to_snake_case_not_longer (name : pystr) :
  (length (to_snake_case name) <= length name)%nat.
Proof. apply to_snake_case_length. Qed.

(** ** The filters on other inputs *)

Lemma keeps_theme_strings l : filter keeps_theme (map JStr l) = [].
Proof. induction l as [|s l IH]; [reflexivity|exact IH]. Qed.

Lemma keeps_theme_chars (s : pystr) :
  filter keeps_theme (map (fun c => JStr [c]) s) = [].
Proof. induction s as [|c s IH]; [reflexivity|exact IH]. Qed.

Lemma filter_hospital_entries_not_a_list_aux :
  (forall bindings, filter_hospital_entries (JObj bindings) = Ok [])
  /\ (forall s, filter_hospital_entries (JStr s) = Ok []).
Proof.
  split.
  - intros bindings. unfold filter_hospital_entries. simpl.
    now rewrite filter_hospital_loop_filter, keeps_theme_strings.
  - intros s. unfold filter_hospital_entries. simpl.
    now rewrite filter_hospital_loop_filter, keeps_theme_chars.
Qed.

(** X5: when the catalogue document is not a list, the theme filter
    returns the empty list for an object or a string (it iterates over keys
    or characters and drops each of them) and raises [TypeError] for null,
    a boolean or a number. *)
Theorem filter_hospital_entries_not_a_list :
  (forall bindings, filter_hospital_entries (JObj bindings) = Ok [])
  /\ (forall s, filter_hospital_entries (JStr s) = Ok [])
  /\ filter_hospital_entries JNull = Raise TypeError
  /\ (forall b, filter_hospital_entries (JBool b) = Raise TypeError)
  /\ (forall n, filter_hospital_entries (JNum n) = Raise TypeError).
Proof.
  destruct filter_hospital_entries_not_a_list_aux as [Ho Hs].
  repeat split; auto.
Qed.

Lemma filter_filter_same {A : Type} (p : A -> bool) l :
  filter p (filter p l) = filter p l.
Proof.
  induction l as [|x l IH]; [reflexivity|].
  simpl. destruct (p x) eqn:E; [|exact IH]. simpl. now rewrite E, IH.
Qed.

Lemma filter_length_le {A : Type} (p : A -> bool) l :
  (length (filter p l) <= length l)%nat.
Proof.
  induction l as [|x l IH]; [simpl; lia|].
  simpl. destruct (p x); simpl; lia.
Qed.

(** X6: the theme filter only selects: what it returns for a list is made
    of descriptors of that list, is no longer than it, and filtering the
    result again changes nothing. *)
Theorem filter_hospital_entries_selects (ds : list json) :
  exists kept,
    filter_hospital_entries (JArr ds) = Ok kept
    /\ incl kept ds
    /\ (length kept <= length ds)%nat
    /\ filter_hospital_entries (JArr kept) = Ok kept.
Proof.
  exists (filter keeps_theme ds).
  unfold filter_hospital_entries. cbn [iterate rbind].
  rewrite !filter_hospital_loop_filter. repeat split.
  - apply incl_filter.
  - apply filter_length_le.
  - now rewrite filter_filter_same.
Qed.

Lemma comparable_dec a b : {comparable a b} + {~ comparable a b}.
Proof.
  unfold comparable.
  destruct (utcoffset a), (utcoffset b);
    try (left; split; congruence);
    right; intros [H1 H2]; try (specialize (H1 eq_refl)); try (specialize (H2 eq_refl));
    discriminate.
Qed.

Lemma all_or_some_incomparable (parser : pystr -> option datetime) ds cutoff :
  Forall (fun d => forall t,
              parse_modified parser d = Ok t -> comparable t cutoff) ds
  \/ Exists (fun d => exists t,
                parse_modified parser d = Ok t /\ ~ comparable t cutoff) ds.
Proof.
  induction ds as [|d ds IH]; [left; constructor|].
  destruct (parse_modified parser d) as [t|e] eqn:E.
  - destruct (comparable_dec t cutoff) as [Hc|Hc].
    + destruct IH as [IH|IH].
      * left. constructor; [|exact IH]. intros t' Ht'. rewrite E in Ht'.
        now injection Ht' as <-.
      * right. now apply Exists_cons_tl.
    + right. apply Exists_cons_hd. now exists t.
  - destruct IH as [IH|IH].
    + left. constructor; [|exact IH]. intros t' Ht'. congruence.
    + right. now apply Exists_cons_tl.
Qed.

(** X7: the only exception the recency filter raises is [TypeError], and
    it raises it exactly when some [modified] value parses to a timestamp
    that cannot be ordered against the cutoff (one of the two has a UTC
    offset and the other has none). *)
Theorem filter_modified_entries_raises_iff
  (parser : pystr -> option datetime) (ds : list json) (cutoff : datetime) (e : exn) :
  filter_modified_entries parser ds cutoff = Raise e <->
  e = TypeError
  /\ Exists (fun d => exists t,
                parse_modified parser d = Ok t /\ ~ comparable t cutoff) ds.
Proof.
  destruct (all_or_some_incomparable parser ds cutoff) as [H|H].
  - rewrite (filter_modified_entries_filter parser ds cutoff H).
    split; [discriminate|]. intros [_ Hex]. exfalso.
    apply Exists_exists in Hex as (d & Hd & t & Ht & Hc).
    rewrite Forall_forall in H. exact (Hc (H d Hd t Ht)).
  - rewrite (filter_modified_entries_raises parser ds cutoff H).
    split; [intros [= <-]; auto|]. now intros [-> _].
Qed.

Lemma comparable_trans a b c : comparable a b -> comparable b c -> comparable a c.
Proof. unfold comparable. tauto. Qed.

(** X8: moving the cutoff later never adds a descriptor: with timestamps
    that can be ordered against the cutoffs, what the recency filter keeps
    for the later cutoff is among what it keeps for the earlier one. *)
Theorem filter_modified_entries_later_cutoff
  (parser : pystr -> option datetime) (ds : list json) (c1 c2 : datetime) :
  Forall (fun d => forall t,
              parse_modified parser d = Ok t -> comparable t c1) ds ->
  comparable c1 c2 ->
  (instant c1 <= instant c2)%Z ->
  exists k1 k2,
    filter_modified_entries parser ds c1 = Ok k1
    /\ filter_modified_entries parser ds c2 = Ok k2
    /\ incl k2 k1.
Proof.
  intros H1 Hc Hle.
  assert (H2 : Forall (fun d => forall t,
                         parse_modified parser d = Ok t -> comparable t c2) ds).
  { eapply Forall_impl; [|exact H1]. simpl. intros d Hd t Ht.
    eapply comparable_trans; [apply (Hd t Ht)|exact Hc]. }
  exists (filter (newer_than parser c1) ds), (filter (newer_than parser c2) ds).
  split; [now apply filter_modified_entries_filter|].
  split; [now apply filter_modified_entries_filter|].
  intros d Hd. apply filter_In in Hd as [Hin Hn]. apply filter_In.
  split; [exact Hin|]. rewrite parse_modified_newer in Hn |- *.
  destruct (parse_modified parser d) as [t|e]; [|discriminate].
  apply Z.ltb_lt in Hn. apply Z.ltb_lt. lia.
Qed.

Lemma filter_modified_entries_later_cutoff_witness :
  exists k1 k2,
    filter_modified_entries fromisoformat_basic
      [modified_at "2024-05-31"; modified_at "2024-06-02"] (datetime_ymd 2024 5 1)
      = Ok k1
    /\ filter_modified_entries fromisoformat_basic
         [modified_at "2024-05-31"; modified_at "2024-06-02"] (datetime_ymd 2024 6 1)
       = Ok k2
    /\ incl k2 k1.
Proof.
  apply (filter_modified_entries_later_cutoff fromisoformat_basic
           [modified_at "2024-05-31"; modified_at "2024-06-02"]
           (datetime_ymd 2024 5 1) (datetime_ymd 2024 6 1)).
  - repeat apply Forall_cons; try apply Forall_nil;
      intros t Ht; vm_compute in Ht; injection Ht as <-; vm_compute; tauto.
  - vm_compute. tauto.
  - vm_compute. discriminate.
Defined.

(** ** The ledger over several runs *)

Lemma column_max_app days d :
  column_max (days ++ [d]) =
  Some (match column_max days with
        | None => d
        | Some m => Z.max m d
        end).
Proof.
  induction days as [|x days IH]; [reflexivity|].
  cbn [app column_max]. rewrite IH.
  destruct (column_max days) as [m|]; [|reflexivity].
  now rewrite Z.max_assoc.
Qed.

Lemma get_last_run_date_after_update rows t c out log :
  let w := snd (update_run_metadata t c (ledger_world rows out log)) in
  get_last_run_date w =
  (Ok (datetime_of_day (match column_max (map run_date rows) with
                        | None => day_of t
                        | Some m => Z.max m (day_of t)
                        end)), w).
Proof.
  cbv zeta. unfold update_run_metadata, ledger_world, set_ledger.
  cbn [snd ledger ledger_header ledger_rows output stdout].
  unfold get_last_run_date, bind, metadata_exists, read_csv, ret.
  cbn [ledger ledger_header ledger_rows].
  change (existsb (pystr_eqb (of_string "run_date")) ledger_columns) with true.
  cbv iota. rewrite map_app. cbn [map run_date].
  now rewrite column_max_app.
Qed.

(** X9: after a row is appended, the cutoff read back is the latest of
    all recorded dates, the new one included: it is never earlier than
    the date just written nor than any date already in the ledger, so
    appending an older date does not move the cutoff back. *)
Theorem get_last_run_date_never_moves_back (rows : list RunRecord)
  (t : datetime) (c : Z) (out : list file) (log : list event) :
  exists day,
    get_last_run_date (snd (update_run_metadata t c (ledger_world rows out log)))
      = (Ok (datetime_of_day day),
         snd (update_run_metadata t c (ledger_world rows out log)))
    /\ (day_of t <= day)%Z
    /\ Forall (fun r => (run_date r <= day)%Z) rows
    /\ (day = day_of t \/ exists r, In r rows /\ day = run_date r).
Proof.
  pose proof (get_last_run_date_after_update rows t c out log) as H.
  cbv zeta in H. eexists. split; [exact H|].
  pose proof (column_max_spec (map run_date rows)) as Hm.
  destruct (column_max (map run_date rows)) as [m|].
  - destruct Hm as [Hin Hall]. split; [lia|]. split.
    + rewrite Forall_forall in Hall |- *. intros r Hr.
      specialize (Hall (run_date r) (in_map run_date rows r Hr)). lia.
    + destruct (Z.max_spec m (day_of t)) as [[_ ->] | [_ ->]]; [now left|].
      right. apply in_map_iff in Hin as (r & <- & Hr). eauto.
  - apply map_eq_nil in Hm. subst rows. split; [lia|]. split; [constructor|now left].
Qed.

(** X10: a dataset whose [modified] is a naive timestamp at or before the
    midnight that begins the day of the last run is not picked up by the
    next run: the cutoff read back is that midnight and the comparison is
    strict.  This holds in particular for a date-only stamp equal to the
    day of the run. *)
Theorem next_run_drops_stamps_of_run_day
  (parser : pystr -> option datetime) (rows : list RunRecord) (t : datetime)
  (c : Z) (out : list file) (log : list event) (d : json) (m : datetime) :
  Forall (fun r => (run_date r <= day_of t)%Z) rows ->
  parse_modified parser d = Ok m ->
  utcoffset m = None ->
  (wall m <= wall (datetime_of_day (day_of t)))%Z ->
  get_last_run_date (snd (update_run_metadata t c (ledger_world rows out log)))
    = (Ok (datetime_of_day (day_of t)),
       snd (update_run_metadata t c (ledger_world rows out log)))
  /\ filter_modified_entries parser [d] (datetime_of_day (day_of t)) = Ok [].
Proof.
  intros Hrows Hd Hnaive Hle. split.
  - pose proof (get_last_run_date_after_update rows t c out log) as H.
    cbv zeta in H. rewrite H.
    pose proof (column_max_spec (map run_date rows)) as Hm.
    destruct (column_max (map run_date rows)) as [x|]; [|reflexivity].
    destruct Hm as [Hin _]. apply in_map_iff in Hin as (r & <- & Hr).
    rewrite Forall_forall in Hrows. specialize (Hrows r Hr).
    now rewrite Z.max_r by exact Hrows.
  - cbn [filter_modified_entries]. rewrite Hd.
    assert (datetime_gt m (datetime_of_day (day_of t)) = Ok false) as ->.
    { unfold datetime_gt. rewrite Hnaive.
      change (utcoffset (datetime_of_day (day_of t))) with (@None Z).
      cbv iota. f_equal. apply Z.ltb_ge. exact Hle. }
    reflexivity.
Qed.

Lemma next_run_drops_stamps_of_run_day_witness :
  get_last_run_date
    (snd (update_run_metadata noon_2024_06_01 1 (ledger_world [] [] [])))
    = (Ok (datetime_of_day (day_of noon_2024_06_01)),
       snd (update_run_metadata noon_2024_06_01 1 (ledger_world [] [] [])))
  /\ filter_modified_entries fromisoformat_basic [modified_at "2024-06-01"]
       (datetime_of_day (day_of noon_2024_06_01)) = Ok [].
Proof.
  apply (next_run_drops_stamps_of_run_day fromisoformat_basic [] noon_2024_06_01 1
           [] [] (modified_at "2024-06-01") (datetime_ymd 2024 6 1)).
  - constructor.
  - vm_compute. reflexivity.
  - reflexivity.
  - vm_compute. discriminate.
Defined.

(** ** The run and the ledger *)

Lemma keeps_ledger_lift {A : Type} (r : result A) : keeps_ledger (lift r).
Proof. intros w r' w'. unfold lift. now intros [= _ <-]. Qed.

Lemma keeps_ledger_ret {A : Type} (a : A) : keeps_ledger (ret a).
Proof. intros w r' w'. unfold ret. now intros [= _ <-]. Qed.

Lemma keeps_ledger_print e : keeps_ledger (print e).
Proof. intros w r' w'. unfold print. now intros [= _ <-]. Qed.

Lemma keeps_ledger_write_files fs : keeps_ledger (write_files fs).
Proof. intros w r' w'. unfold write_files. now intros [= _ <-]. Qed.

Lemma keeps_ledger_collect futures n : keeps_ledger (collect futures n).
Proof. intros w r' w'. rewrite collect_counts. now intros [= _ <-]. Qed.

Lemma keeps_ledger_bind {A B : Type} (m : M A) (k : A -> M B) :
  keeps_ledger m -> (forall a, keeps_ledger (k a)) -> keeps_ledger (bind m k).
Proof.
  intros Hm Hk w r w'. unfold bind.
  destruct (m w) as [[a|e] w1] eqn:E.
  - intros H. rewrite (Hk a _ _ _ H). exact (Hm _ _ _ E).
  - intros [= _ <-]. exact (Hm _ _ _ E).
Qed.

Lemma appends_one_row_bind {A : Type} day (m : M A) (k : A -> M unit) :
  keeps_ledger m -> (forall a, appends_one_row day (k a)) ->
  appends_one_row day (bind m k).
Proof.
  intros Hm Hk w r w' f Hf. unfold bind.
  destruct (m w) as [[a|e] w1] eqn:E.
  - intros H. apply (Hk a w1 r w' f); [|exact H].
    now rewrite (Hm _ _ _ E).
  - intros [= <- <-]. exists []. rewrite app_nil_r, (Hm _ _ _ E), Hf.
    split; [now destruct f|reflexivity].
Qed.

Lemma appends_one_row_update t c :
  appends_one_row (day_of t)
    (bind (update_run_metadata t c) (fun _ => print (PrintDone c))).
Proof.
  intros w r w' f Hf. unfold bind, update_run_metadata, print, set_ledger.
  cbn [ledger output stdout]. rewrite Hf. intros [= <- <-].
  cbn [ledger]. eexists. split; [reflexivity|]. now exists c.
Qed.

Lemma get_last_run_date_existing_world w f r w1 :
  ledger w = Some f -> get_last_run_date w = (r, w1) -> w1 = w.
Proof.
  destruct w as [[g|] out log]; cbn [ledger]; [intros _|discriminate].
  unfold get_last_run_date, bind, metadata_exists, read_csv, ret.
  cbn [ledger].
  destruct (existsb (pystr_eqb (of_string "run_date")) (ledger_header g));
    now intros [= _ <-].
Qed.

Lemma main_appends_at_most_one_row_aux (env : environment) (w w' : world)
  (f : ledger_file) (r : result unit) :
  ledger w = Some f ->
  main env w = (r, w') ->
  exists extra,
    ledger w' = Some {| ledger_header := ledger_header f;
                        ledger_rows := ledger_rows f ++ extra |}
    /\ match r with
       | Ok _ => exists c, extra = [{| run_date := day_of (today env);
                                       processed_count := c |}]
       | Raise _ => extra = []
       end.
Proof.
  intros Hf. unfold main. unfold bind at 1.
  destruct (get_last_run_date w) as [[cutoff|e] w1] eqn:Hget;
    pose proof (get_last_run_date_existing_world w f _ _ Hf Hget) as ->.
  - cbv beta.
    match goal with
    | |- ?m w = _ -> _ =>
        assert (Happ : appends_one_row (day_of (today env)) m);
        [|intros Hmain; exact (Happ w r w' f Hf Hmain)]
    end.
    apply appends_one_row_bind; [apply keeps_ledger_print|intros _].
    apply appends_one_row_bind; [apply keeps_ledger_lift|intros all].
    apply appends_one_row_bind; [apply keeps_ledger_lift|intros hosp].
    apply appends_one_row_bind; [apply keeps_ledger_lift|intros modi].
    apply appends_one_row_bind; [apply keeps_ledger_lift|intros urls].
    apply appends_one_row_bind.
    { destruct (0 <? Z.of_nat (length urls))%Z; [|apply keeps_ledger_ret].
      apply keeps_ledger_bind; [apply keeps_ledger_write_files|intros _].
      apply keeps_ledger_collect. }
    intros count.
    apply appends_one_row_bind; [apply keeps_ledger_lift|intros n].
    apply appends_one_row_bind; [apply keeps_ledger_print|intros _].
    apply appends_one_row_update.
  - intros [= <- <-]. exists []. rewrite app_nil_r, Hf.
    split; [now destruct f|reflexivity].
Qed.



(** The world a run ends in, once the ledger, the catalogue, the filters
    and the extraction of the URLs have gone through. *)
Lemma main_world env w cutoff w1 f all hosp modi urls n :
  get_last_run_date w = (Ok cutoff, w1) ->
  ledger w1 = Some f ->
  get_file_data env = Ok all ->
  filter_hospital_entries all = Ok hosp ->
  filter_modified_entries (fromisoformat env) hosp cutoff = Ok modi ->
  build_url_list modi = Ok urls ->
  py_len all = Ok n ->
  main env w =
  (Ok tt,
   {| ledger :=
        Some (appended f
                {| run_date := day_of (today env);
                   processed_count :=
                     Z.of_nat (length (completed_futures env urls)) |});
      output := output w1 ++ flat_map written (completed_futures env urls);
      stdout :=
        (((stdout w1 ++ [PrintCutoff (day_of cutoff)])
            ++ map log_of (completed_futures env urls))
           ++ [PrintCounts n (Z.of_nat (length hosp)) (Z.of_nat (length modi))])
          ++ [PrintDone (Z.of_nat (length (completed_futures env urls)))] |}).
Proof.
  intros Hget Hf Hcat Hhosp Hmod Hurls Hn.
  unfold main.
  rewrite (bind_ok _ _ _ _ _ Hget).
  unfold bind at 1. cbn [print].
  unfold bind at 1, lift at 1. rewrite Hcat.
  unfold bind at 1, lift at 1. rewrite Hhosp.
  unfold bind at 1, lift at 1. rewrite Hmod.
  unfold bind at 1, lift at 1. rewrite Hurls.
  destruct urls as [|u us].
  - cbn [length Z.of_nat Z.ltb Z.compare completed_futures].
    unfold bind at 1, ret at 1.
    unfold bind at 1, lift at 1. rewrite Hn.
    unfold bind, print, update_run_metadata, set_ledger.
    cbn [ledger output stdout flat_map map length Z.of_nat].
    now rewrite Hf, !app_nil_r.
  - assert ((0 <? Z.of_nat (length (u :: us)))%Z = true) as ->
      by (apply Z.ltb_lt; simpl; lia).
    change (as_completed env
              (map (fun f0 => (f0, process_file (download env) f0)) (u :: us)))
      with (completed_futures env (u :: us)).
    unfold bind at 1. unfold bind at 1. cbn [write_files].
    rewrite collect_counts. cbn [ledger output stdout].
    unfold bind at 1, lift at 1. rewrite Hn.
    unfold bind, print, update_run_metadata, set_ledger.
    cbn [ledger output stdout]. rewrite Hf. cbn [Z.add]. reflexivity.
Qed.

(** X12: when the catalogue response is a JSON object or a string instead
    of a list (an error payload, say), the run does not fail: it
    dispatches nothing, writes no file, and appends a row with count 0
    dated today, which moves the cutoff of the next run. *)
Theorem main_accepts_non_list_catalogue (env : environment) (w w1 : world)
  (cutoff : datetime) (f : ledger_file) (root : json) :
  get_last_run_date w = (Ok cutoff, w1) ->
  ledger w1 = Some f ->
  get_file_data env = Ok root ->
  (exists bindings, root = JObj bindings) \/ (exists s, root = JStr s) ->
  exists w',
    main env w = (Ok tt, w')
    /\ ledger w' = Some (appended f {| run_date := day_of (today env);
                                       processed_count := 0 |})
    /\ output w' = output w1
    /\ In (PrintDone 0) (stdout w').
Proof.
  intros Hget Hf Hcat Hroot.
  assert (Hhosp : filter_hospital_entries root = Ok []).
  { destruct filter_hospital_entries_not_a_list_aux as [Ho Hs].
    destruct Hroot as [[b ->] | [s ->]]; auto. }
  destruct (filter_hospital_entries_len _ _ Hhosp) as (n & Hn).
  rewrite (main_world env w cutoff w1 f root [] [] [] n Hget Hf Hcat Hhosp
             eq_refl eq_refl Hn).
  eexists. split; [reflexivity|]. cbn [ledger output stdout completed_futures
                                        length Z.of_nat flat_map].
  split; [reflexivity|]. split; [apply app_nil_r|].
  apply in_or_app. right. now left.
Qed.

Lemma main_accepts_non_list_catalogue_witness :
  exists w',
    main (environment_of error_payload unreachable) empty_world = (Ok tt, w')
    /\ ledger w' = Some (appended {| ledger_header := ledger_columns; ledger_rows := [] |}
                           {| run_date := day_of noon_2024_06_01;
                              processed_count := 0 |})
    /\ output w' = []
    /\ In (PrintDone 0) (stdout w').
Proof.
  apply (main_accepts_non_list_catalogue (environment_of error_payload unreachable)
           empty_world (ledger_world [] [] []) sentinel_date
           {| ledger_header := ledger_columns; ledger_rows := [] |} error_payload).
  - reflexivity.
  - reflexivity.
  - reflexivity.
  - left. eexists. reflexivity.
Defined.

(** ** process_file: failures, file names and reprocessing *)

Lemma parse_add_char_raise r c e : parse_add_char r c = Raise e -> e = CsvError.
Proof.
  unfold parse_add_char.
  destruct (field_limit <=? N.of_nat (length (field r))); [|discriminate].
  now intros [= <-].
Qed.

Lemma add_then_set_raise st r c e :
  (x <- parse_add_char r c ;; Ok (set_state st x))%result = Raise e -> e = CsvError.
Proof.
  destruct (parse_add_char r c) as [x|e'] eqn:E; [discriminate|].
  simpl. intros [= <-]. eapply parse_add_char_raise, E.
Qed.

Lemma parse_process_char_raise r c e :
  parse_process_char r c = Raise e -> e = CsvError.
Proof.
  unfold parse_process_char, start_field.
  destruct (state r); destruct c as [ch|];
    repeat match goal with
           | |- context [if ?b then _ else _] => destruct b
           end;
    try discriminate;
    try (now intros [= <-]);
    try (apply add_then_set_raise);
    try (apply parse_add_char_raise).
Qed.

(** After the end of a line the automaton is at the start of a record or
    inside a quoted field. *)
Lemma end_of_line_state r r' :
  parse_process_char r None = Ok r' ->
  at_start_record r' = true \/ in_quoted_field r' = true.
Proof.
  unfold parse_process_char, start_field, at_start_record, in_quoted_field.
  destruct (state r) eqn:E; intros [= <-]; cbn [set_state state]; rewrite ?E; auto.
Qed.

Lemma reader_rows_nil_quoted r :
  in_quoted_field r = true -> exists row, reader_rows r [] = Ok [row].
Proof.
  intros H. simpl. rewrite H, orb_true_r. eauto.
Qed.

Lemma stream_raise text r pending e :
  stream r pending text = Raise e -> e = CsvError.
Proof.
  revert r pending. induction text as [|c text IH]; intros r pending.
  - cbn [stream]. destruct pending.
    + destruct (parse_process_char r None) as [r'|e'] eqn:E.
      * cbn [rbind]. destruct (at_start_record r'); [discriminate|].
        simpl. now destruct (negb (is_empty (field r')) || in_quoted_field r').
      * cbn [rbind]. intros [= <-]. eapply parse_process_char_raise, E.
    + simpl. now destruct (negb (is_empty (field r)) || in_quoted_field r).
  - cbn [stream].
    destruct (parse_process_char r (Some c)) as [r'|e'] eqn:E;
      [|cbn [rbind]; intros [= <-]; eapply parse_process_char_raise, E].
    cbn [rbind]. destruct (c =? LF); [|apply IH].
    destruct (parse_process_char r' None) as [r''|e'] eqn:E';
      [|cbn [rbind]; intros [= <-]; eapply parse_process_char_raise, E'].
    cbn [rbind]. destruct (at_start_record r''); [|apply IH].
    destruct (stream parse_reset false text) as [rows|e'] eqn:E''; [discriminate|].
    cbn [rbind]. intros [= <-]. eapply IH, E''.
Qed.

Lemma stream_some_row text r pending rows :
  pending = true \/ text <> [] \/ in_quoted_field r = true ->
  stream r pending text = Ok rows -> rows <> [].
Proof.
  revert r pending rows. induction text as [|c text IH]; intros r pending rows Hc.
  - cbn [stream]. destruct pending.
    + destruct (parse_process_char r None) as [r'|e'] eqn:E; [|discriminate].
      cbn [rbind]. destruct (end_of_line_state r r' E) as [H|H].
      * rewrite H. intros [= <-]. discriminate.
      * destruct (at_start_record r'); [intros [= <-]; discriminate|].
        destruct (reader_rows_nil_quoted r' H) as (row & ->).
        intros [= <-]. discriminate.
    + destruct Hc as [Hc|[Hc|Hc]]; [discriminate|congruence|].
      destruct (reader_rows_nil_quoted r Hc) as (row & ->).
      intros [= <-]. discriminate.
  - cbn [stream].
    destruct (parse_process_char r (Some c)) as [r'|e'] eqn:E; [|discriminate].
    cbn [rbind]. destruct (c =? LF); [|apply IH; now left].
    destruct (parse_process_char r' None) as [r''|e'] eqn:E'; [|discriminate].
    cbn [rbind]. destruct (end_of_line_state r' r'' E') as [H|H].
    + rewrite H. destruct (stream parse_reset false text); [|discriminate].
      cbn [rbind]. intros [= <-]. discriminate.
    + destruct (at_start_record r'').
      * destruct (stream parse_reset false text); [|discriminate].
        cbn [rbind]. intros [= <-]. discriminate.
      * apply IH. now right; right.
Qed.

(** X14: the text part of [process_file] fails with [IndexError] exactly
    on an empty body (there is no first row to take as header); the only
    other exception it raises is [csv.Error], and a body that is not empty
    and parses always has a header row. *)
Theorem process_text_failures (csv_text : pystr) (e : exn) :
  (process_text csv_text = Raise IndexError <-> csv_text = [])
  /\ (process_text csv_text = Raise e -> e = IndexError \/ e = CsvError).
Proof.
  unfold process_text. rewrite csv_reader_stream.
  destruct (stream parse_reset false csv_text) as [rows|e'] eqn:E.
  - cbn [rbind]. destruct rows as [|header data_rows].
    + destruct csv_text as [|c text].
      * split; [tauto|]. intros [= <-]. now left.
      * exfalso.
        assert (Hne : c :: text <> []) by discriminate.
        exact (stream_some_row (c :: text) parse_reset false []
                 (or_intror (or_introl Hne)) E eq_refl).
    + split; [split; [discriminate|]|discriminate].
      intros ->. discriminate.
  - cbn [rbind]. pose proof (stream_raise _ _ _ _ E) as ->.
    split; [split; [discriminate|]|intros [= <-]; now right].
    intros ->. discriminate.
Qed.

(** Reading back what [process_text] wrote. *)
Lemma process_text_reread csv_text out :
  process_text csv_text = Ok out ->
  exists header data_rows,
    csv_reader csv_text = Ok (header :: data_rows)
    /\ out = writerows (map to_snake_case header :: data_rows)
    /\ csv_reader out = Ok (map to_snake_case header :: data_rows).
Proof.
  intros H. destruct (process_text_inv _ _ H) as (header & data_rows & Hr & ->).
  exists header, data_rows. split; [exact Hr|]. split; [reflexivity|].
  apply csv_reader_writerows.
  pose proof (csv_reader_within _ _ Hr) as Hl.
  inversion Hl as [|? ? Hh Hd]; subst.
  constructor; [now apply map_to_snake_case_within|exact Hd].
Qed.



(** X16: processing is idempotent on its own output: a file the script
    wrote, fed to it again, is written back byte for byte. *)
Theorem process_text_idempotent (csv_text out : pystr) :
  process_text csv_text = Ok out -> process_text out = Ok out.
Proof.
  intros H.
  destruct (process_text_reread _ _ H) as (header & data_rows & _ & Hout & Hread).
  unfold process_text. rewrite Hread. cbn [rbind]. rewrite Hout.
  rewrite map_map.
  rewrite (map_ext _ to_snake_case
             (fun x => to_snake_case_fixed _ (to_snake_case_shape x))).
  reflexivity.
Qed.

Lemma process_text_idempotent_witness :
  process_text (of_string "facility_id,name" ++ [CR; LF]
                  ++ of_string "10,General" ++ [CR; LF])
  = Ok (of_string "facility_id,name" ++ [CR; LF]
          ++ of_string "10,General" ++ [CR; LF]).
Proof.
  apply (process_text_idempotent unix_source). vm_compute. reflexivity.
Defined.

(** X17: in every file written, the header row has as many cells as the
    source's header row and each of them has the token shape; the data rows
    read back are the source's. *)
Theorem process_text_header_tokens (csv_text out : pystr) :
  process_text csv_text = Ok out ->
  exists source_header header data_rows,
    csv_reader csv_text = Ok (source_header :: data_rows)
    /\ csv_reader out = Ok (header :: data_rows)
    /\ length header = length source_header
    /\ Forall (fun cell => header_token cell = true) header.
Proof.
  intros H.
  destruct (process_text_reread _ _ H) as (h0 & data_rows & Hsrc & _ & Hread).
  exists h0, (map to_snake_case h0), data_rows.
  repeat split; auto using length_map.
  apply Forall_forall. intros cell Hc. apply in_map_iff in Hc as (x & <- & _).
  apply to_snake_case_shape.
Qed.

Lemma process_text_header_tokens_witness :
  exists source_header header data_rows,
    csv_reader unix_source = Ok (source_header :: data_rows)
    /\ csv_reader (of_string "facility_id,name" ++ [CR; LF]
                     ++ of_string "10,General" ++ [CR; LF])
       = Ok (header :: data_rows)
    /\ length header = length source_header
    /\ Forall (fun cell => header_token cell = true) header.
Proof.
  apply (process_text_header_tokens unix_source). vm_compute. reflexivity.
Defined.

Lemma last_segment_snoc url c :
  last_segment (url ++ [c]) = if c =? 47 then [] else last_segment url ++ [c].
Proof. unfold last_segment. now rewrite fold_left_app. Qed.

Lemma last_segment_no_slash url : no_slash (last_segment url) = true.
Proof.
  induction url as [|c url IH] using rev_ind; [reflexivity|].
  rewrite last_segment_snoc. destruct (c =? 47) eqn:E; [reflexivity|].
  unfold no_slash in *. rewrite forallb_app. apply andb_true_iff.
  split; [exact IH|]. simpl. now rewrite E.
Qed.

Lemma last_segment_split url :
  exists prefix,
    url = prefix ++ last_segment url
    /\ (prefix = [] \/ exists p, prefix = p ++ [47]).
Proof.
  induction url as [|c url IH] using rev_ind.
  - exists []. split; [reflexivity|now left].
  - rewrite last_segment_snoc. destruct (c =? 47) eqn:E.
    + apply N.eqb_eq in E. subst c. exists (url ++ [47]).
      split; [now rewrite app_nil_r|]. right. now exists url.
    + destruct IH as (prefix & Hu & Hp). exists prefix.
      split; [|exact Hp]. rewrite app_assoc. now rewrite <- Hu.
Qed.

(** X18: the file a successful worker writes is named by what follows the
    last slash of its URL: the name is not empty, contains no slash, and
    the URL is the name preceded by nothing or by a prefix that ends with
    a slash.  (Two URLs with the same last segment are thus written to
    the same file.) *)
Theorem process_file_name (download : pystr -> result pystr) (url name out : pystr) :
  process_file download url = Ok (name, out) ->
  name <> []
  /\ no_slash name = true
  /\ (exists prefix,
        url = prefix ++ name /\ (prefix = [] \/ exists p, prefix = p ++ [47]))
  /\ exists csv_text, download url = Ok csv_text /\ process_text csv_text = Ok out.
Proof.
  unfold process_file.
  destruct (download url) as [csv_text|e]; [|discriminate]. cbn [rbind].
  destruct (process_text csv_text) as [o|e] eqn:Ho; [|discriminate]. cbn [rbind].
  destruct (last_segment url) as [|c n] eqn:E; [discriminate|].
  cbn [is_empty]. intros [= <- <-]. rewrite <- E.
  split; [rewrite E; discriminate|].
  split; [apply last_segment_no_slash|].
  split; [apply last_segment_split|]. now exists csv_text.
Qed.

Lemma process_file_name_witness :
  of_string "a.csv" <> []
  /\ no_slash (of_string "a.csv") = true
  /\ (exists prefix,
        of_string "https://data.example/a.csv" = prefix ++ of_string "a.csv"
        /\ (prefix = [] \/ exists p, prefix = p ++ [47]))
  /\ exists csv_text,
       small_file (of_string "https://data.example/a.csv") = Ok csv_text
       /\ process_text csv_text =
          Ok (of_string "facility_id,hospitals_name" ++ [CR; LF]
                ++ of_string "1,General" ++ [CR; LF]).
Proof.
  apply (process_file_name small_file (of_string "https://data.example/a.csv")).
  vm_compute. reflexivity.
Defined.

(** X19: a URL that is empty or ends with a slash has no file name, so
    its worker never returns: it raises what the download raised, else
    what the processing of the text raised, else [OSError], the path to
    open being the output directory itself. *)
Theorem process_file_without_file_name (download : pystr -> result pystr)
  (url : pystr) :
  url = [] \/ (exists p, url = p ++ [47]) ->
  exists e,
    process_file download url = Raise e
    /\ (download url = Raise e
        \/ (exists csv_text,
              download url = Ok csv_text /\ process_text csv_text = Raise e)
        \/ (e = OSError
            /\ exists csv_text out,
                 download url = Ok csv_text /\ process_text csv_text = Ok out)).
Proof.
  intros Hurl.
  assert (Hname : last_segment url = []).
  { destruct Hurl as [->|(p & ->)]; [reflexivity|].
    now rewrite last_segment_snoc. }
  unfold process_file.
  destruct (download url) as [csv_text|e1]; cbn [rbind].
  - destruct (process_text csv_text) as [out|e2] eqn:Hp; cbn [rbind].
    + rewrite Hname. cbn [is_empty]. exists OSError. split; [reflexivity|].
      right; right. split; [reflexivity|]. now exists csv_text, out.
    + exists e2. split; [reflexivity|]. right; left. now exists csv_text.
  - exists e1. split; [reflexivity|]. now left.
Qed.

Lemma process_file_without_file_name_witness :
  exists e,
    process_file small_file (of_string "https://data.example/files/") = Raise e
    /\ (small_file (of_string "https://data.example/files/") = Raise e
        \/ (exists csv_text,
              small_file (of_string "https://data.example/files/") = Ok csv_text
              /\ process_text csv_text = Raise e)
        \/ (e = OSError
            /\ exists csv_text out,
                 small_file (of_string "https://data.example/files/") = Ok csv_text
                 /\ process_text csv_text = Ok out)).
Proof.
  apply (process_file_without_file_name small_file
           (of_string "https://data.example/files/")).
  right. exists (of_string "https://data.example/files"). reflexivity.
Defined.

(** ** The URLs of a run *)




(** ** Failed runs, the printed lines, and the ledger between runs *)

(** X21: an exception raised while the catalogue is fetched, in either
    filter, or while the URLs are extracted leaves [main] at once, before
    the output directory is made and before any worker is started: no file
    is written, the ledger is as the read of the cutoff left it (no row is
    appended), and only the cutoff line has been printed. *)
Theorem main_stage_failure_writes_nothing (env : environment) (w w1 : world)
  (cutoff : datetime) (e : exn) :
  get_last_run_date w = (Ok cutoff, w1) ->
  get_file_data env = Raise e
  \/ (exists all,
        get_file_data env = Ok all /\ filter_hospital_entries all = Raise e)
  \/ (exists all hosp,
        get_file_data env = Ok all /\ filter_hospital_entries all = Ok hosp
        /\ filter_modified_entries (fromisoformat env) hosp cutoff = Raise e)
  \/ (exists all hosp modi,
        get_file_data env = Ok all /\ filter_hospital_entries all = Ok hosp
        /\ filter_modified_entries (fromisoformat env) hosp cutoff = Ok modi
        /\ build_url_list modi = Raise e) ->
  main env w =
  (Raise e,
   {| ledger := ledger w1; output := output w;
      stdout := stdout w ++ [PrintCutoff (day_of cutoff)] |}).
Proof.
  intros Hget Hstage.
  destruct (get_last_run_date_ledger _ _ _ Hget) as (f & _ & Hout & Hlog).
  unfold main. rewrite (bind_ok _ _ _ _ _ Hget).
  unfold bind, lift, print. rewrite <- Hout, <- Hlog.
  destruct Hstage as [H1|[(all & H1 & H2)|[(all & hosp & H1 & H2 & H3)
                                          |(all & hosp & modi & H1 & H2 & H3 & H4)]]].
  - now rewrite H1.
  - now rewrite H1, H2.
  - now rewrite H1, H2, H3.
  - now rewrite H1, H2, H3, H4.
Qed.

Lemma main_stage_failure_writes_nothing_witness :
  main (environment_of (JArr [descriptor_without_distribution]) small_file)
       empty_world
  = (Raise KeyError,
     {| ledger := ledger (ledger_world [] [] []); output := output empty_world;
        stdout := stdout empty_world ++ [PrintCutoff (day_of sentinel_date)] |}).
Proof.
  apply (main_stage_failure_writes_nothing
           (environment_of (JArr [descriptor_without_distribution]) small_file)
           empty_world (ledger_world [] [] []) sentinel_date KeyError).
  - reflexivity.
  - right; right; right.
    exists (JArr [descriptor_without_distribution]),
      [descriptor_without_distribution], [descriptor_without_distribution].
    repeat split; reflexivity.
Defined.



Lemma get_last_run_date_well_formed w :
  ledger_well_formed w ->
  exists t f,
    get_last_run_date w = (Ok t, set_ledger (Some f) w)
    /\ ledger_header f = ledger_columns
    /\ get_last_run_date (set_ledger (Some f) w) = (Ok t, set_ledger (Some f) w).
Proof.
  unfold ledger_well_formed.
  destruct w as [[f|] out log]; cbn [ledger].
  - intros Hh. destruct f as [h rows]. cbn in Hh. subst h.
    eexists. exists {| ledger_header := ledger_columns; ledger_rows := rows |}.
    repeat split; reflexivity.
  - intros _. eexists.
    exists {| ledger_header := ledger_columns; ledger_rows := [] |}.
    repeat split; reflexivity.
Qed.

Lemma main_after_get env w t w1 :
  get_last_run_date w = (Ok t, w1) ->
  get_last_run_date w1 = (Ok t, w1) ->
  main env w = main env w1.
Proof.
  intros H H1. unfold main.
  now rewrite (bind_ok _ _ _ _ _ H), (bind_ok _ _ _ _ _ H1).
Qed.

Lemma main_appends env w w' f r :
  ledger w = Some f ->
  main env w = (r, w') ->
  exists extra,
    ledger w' = Some {| ledger_header := ledger_header f;
                        ledger_rows := ledger_rows f ++ extra |}.
Proof.
  intros Hf H.
  destruct (main_appends_at_most_one_row_aux env w w' f r Hf H) as (extra & He & _).
  now exists extra.
Qed.

(** X23: the ledger stays readable from run to run.  If the ledger is
    absent or has the header the script writes, then after a run, whether
    it returned or raised, the ledger exists with that header, and the
    next read of the cutoff succeeds without changing anything. *)
Theorem main_keeps_ledger_readable (env : environment) (w w' : world)
  (r : result unit) :
  ledger_well_formed w ->
  main env w = (r, w') ->
  exists f' t,
    ledger w' = Some f'
    /\ ledger_header f' = ledger_columns
    /\ get_last_run_date w' = (Ok t, w').
Proof.
  intros Hwf Hmain.
  destruct (get_last_run_date_well_formed w Hwf) as (t & f & Hget & Hh & Hget1).
  rewrite (main_after_get env w t _ Hget Hget1) in Hmain.
  destruct (main_appends env (set_ledger (Some f) w) w' f r eq_refl Hmain)
    as (extra & Hl).
  assert (Hwf' : ledger_well_formed w').
  { unfold ledger_well_formed. rewrite Hl. exact Hh. }
  destruct (get_last_run_date_well_formed w' Hwf') as (t' & f' & Hget' & Hh' & _).
  assert (Hsame : set_ledger (Some f') w' = w').
  { pose proof (get_last_run_date_existing_world w' _ _ _ Hl Hget') as E.
    exact E. }
  rewrite Hsame in Hget'. eexists. exists t'. split; [exact Hl|].
  split; [exact Hh|exact Hget'].
Qed.

Lemma main_keeps_ledger_readable_witness :
  exists f' t,
    ledger (snd (main (environment_of catalog_three unreachable) empty_world)) = Some f'
    /\ ledger_header f' = ledger_columns
    /\ get_last_run_date (snd (main (environment_of catalog_three unreachable) empty_world))
       = (Ok t, snd (main (environment_of catalog_three unreachable) empty_world)).
Proof.
  apply (main_keeps_ledger_readable (environment_of catalog_three unreachable)
           empty_world _ (Ok tt)).
  - exact I.
  - vm_compute. reflexivity.
Defined.
